(** * Enigma.py: a shallow embedding of the [Enigma] class

    The development follows [src/Enigma.py].  A Python [str] is the list of
    its code points, an [int] is a [Z], a Python exception is a value of
    [exn].  A method of the class is a computation over the object it is
    called on: it returns a value or raises, and leaves an object behind.
    The body of [encode] runs over a [Frame], which holds the object next to
    the lists the call creates ([walzen], [count]) and its output.

    Scope of the embedding.  The branches that draw from [random] take the
    draws as an argument: the values of [random.randint] for
    [set_ringkerben], and for [random.sample] the places taken among those
    that are left.  The two [while] loops of these branches are given as
    many rounds as the alphabet has characters, which is shown to be
    enough.  [encode] is embedded with [verbose] and [vverbose] at their
    default [False]; printing is left out.  [str.upper] is embedded on ASCII
    text: a code point from [a] to [z] goes to its capital, every other one
    stays.  A property of [encode] on messages that are not made of letters
    of the alphabet is stated for ASCII messages. *)

From Stdlib Require Import ZArith List Lia Bool String Ascii Permutation.
Import ListNotations.
Open Scope Z_scope.

(** ** Python values *)

Definition str := list Z.

(** The code points of a literal. *)
Definition py (s : string) : str :=
  map (fun a => Z.of_N (N_of_ascii a)) (list_ascii_of_string s).

Inductive exn : Set :=
| IndexError
| ValueError
| TypeError
| ZeroDivisionError
| InputError.

Inductive result (A : Type) : Type :=
| Ok (a : A)
| Raise (x : exn).

Arguments Ok {A} a.
Arguments Raise {A} x.

Definition rbind {A B} (r : result A) (k : A -> result B) : result B :=
  match r with
  | Ok a => k a
  | Raise x => Raise x
  end.

Declare Scope res_scope.
Delimit Scope res_scope with res.
Notation "x <- r ;; k" := (rbind r (fun x => k))
  (at level 61, r at next level, right associativity) : res_scope.

Fixpoint rmap {A B} (f : A -> result B) (l : list A) : result (list B) :=
  match l with
  | [] => Ok []
  | a :: l' => (b <- f a ;; bs <- rmap f l' ;; Ok (b :: bs))%res
  end.

Definition len {A} (l : list A) : Z := Z.of_nat (List.length l).

(** [l[i]]: a negative index counts from the end. *)
Definition getitem {A} (l : list A) (i : Z) : result A :=
  let j := if i <? 0 then i + len l else i in
  if j <? 0 then Raise IndexError
  else match nth_error l (Z.to_nat j) with
       | Some a => Ok a
       | None => Raise IndexError
       end.

Fixpoint update {A} (l : list A) (n : nat) (v : A) : list A :=
  match l, n with
  | [], _ => []
  | _ :: l', O => v :: l'
  | a :: l', S n' => a :: update l' n' v
  end.

(** [l[i] = v] on a list. *)
Definition setitem {A} (l : list A) (i : Z) (v : A) : result (list A) :=
  let j := if i <? 0 then i + len l else i in
  if (j <? 0) || (len l <=? j) then Raise IndexError
  else Ok (update l (Z.to_nat j) v).

(** The bound of a slice, clamped as Python does. *)
Definition clamp {A} (l : list A) (i : Z) : nat :=
  Z.to_nat (if i <? 0 then Z.max (i + len l) 0 else Z.min i (len l)).

(** [l[i:]] and [l[:i]]. *)
Definition slice_from {A} (l : list A) (i : Z) : list A := skipn (clamp l i) l.
Definition slice_to {A} (l : list A) (i : Z) : list A := firstn (clamp l i) l.

(** [c in s] for a one-character [c]. *)
Definition contains (c : Z) (s : str) : bool := existsb (Z.eqb c) s.

(** [s.replace(c, "")] for a one-character [c]. *)
Definition remove_char (c : Z) (s : str) : str :=
  filter (fun d => negb (d =? c)) s.

Fixpoint find_from (c : Z) (s : str) (i : Z) : result Z :=
  match s with
  | [] => Raise ValueError
  | d :: s' => if d =? c then Ok i else find_from c s' (i + 1)
  end.

(** [s.index(c)] for a one-character [c]. *)
Definition index (c : Z) (s : str) : result Z := find_from c s 0.

(** [ord(s)]: defined on strings of length one. *)
Definition ord (s : str) : result Z :=
  match s with
  | [c] => Ok c
  | _ => Raise TypeError
  end.

(** [chr(z)]: defined below [0x110000]. *)
Definition chr (z : Z) : result Z :=
  if (0 <=? z) && (z <? 1114112) then Ok z else Raise ValueError.

(** [a % b] for a length [b]. *)
Definition pymod (a b : Z) : result Z :=
  if b =? 0 then Raise ZeroDivisionError else Ok (a mod b).

Fixpoint enumerate_from {A} (i : Z) (l : list A) : list (Z * A) :=
  match l with
  | [] => []
  | a :: l' => (i, a) :: enumerate_from (i + 1) l'
  end.

Definition enumerate {A} (l : list A) : list (Z * A) := enumerate_from 0 l.

(** [c.upper()] for an ASCII character [c]: a small letter goes to its
    capital, every other ASCII character stays.  Outside ASCII [str.upper]
    follows the Unicode tables and can give letters from [A] to [Z], more
    than one for a character; those are not embedded. *)
Definition upper_char (c : Z) : Z :=
  if (97 <=? c) && (c <=? 122) then c - 32 else c.

(** [s.upper()] for an ASCII string [s]; what is stated below through
    [upper] of a message that is not known to be made of letters of the
    alphabet assumes [isascii]. *)
Definition upper (s : str) : str := map upper_char s.

(** [s.isascii()]. *)
Definition isascii (s : str) : bool :=
  forallb (fun c => (0 <=? c) && (c <? 128)) s.

(** ** Computations over a state *)

Definition M (S A : Type) : Type := S -> result A * S.

Definition ret {S A} (a : A) : M S A := fun s => (Ok a, s).

Definition bind {S A B} (m : M S A) (k : A -> M S B) : M S B :=
  fun s =>
    match m s with
    | (Ok a, s') => k a s'
    | (Raise x, s') => (Raise x, s')
    end.

Definition raise {S A} (x : exn) : M S A := fun s => (Raise x, s).

Definition get {S} : M S S := fun s => (Ok s, s).

Definition put {S} (s : S) : M S unit := fun _ => (Ok tt, s).

Definition lift {S A} (r : result A) : M S A := fun s => (r, s).

Declare Scope comp_scope.
Delimit Scope comp_scope with comp.
Notation "x <- m ;; k" := (bind m (fun x => k))
  (at level 61, m at next level, right associativity) : comp_scope.
Notation "m ;; k" := (bind m (fun _ => k))
  (at level 61, right associativity) : comp_scope.

(** [for x in l: body(x)]. *)
Fixpoint for_each {S A} (l : list A) (body : A -> M S unit) : M S unit :=
  match l with
  | [] => ret tt
  | a :: l' => (body a ;; for_each l' body)%comp
  end.

(** ** The object *)

Record Enigma : Type := {
  __num_walzen : Z;
  __base : str;
  __alphabet : str;
  __walzen : list str;
  __umkehrwalze : str;
  __steckerbrett : list str;
  __ringkerben : list Z
}.

Definition with_walzen (ws : list str) (e : Enigma) : Enigma :=
  {| __num_walzen := __num_walzen e; __base := __base e;
     __alphabet := __alphabet e; __walzen := ws;
     __umkehrwalze := __umkehrwalze e; __steckerbrett := __steckerbrett e;
     __ringkerben := __ringkerben e |}.

Definition with_umkehrwalze (u : str) (e : Enigma) : Enigma :=
  {| __num_walzen := __num_walzen e; __base := __base e;
     __alphabet := __alphabet e; __walzen := __walzen e;
     __umkehrwalze := u; __steckerbrett := __steckerbrett e;
     __ringkerben := __ringkerben e |}.

Definition with_steckerbrett (sb : list str) (e : Enigma) : Enigma :=
  {| __num_walzen := __num_walzen e; __base := __base e;
     __alphabet := __alphabet e; __walzen := __walzen e;
     __umkehrwalze := __umkehrwalze e; __steckerbrett := sb;
     __ringkerben := __ringkerben e |}.

Definition with_ringkerben (rk : list Z) (e : Enigma) : Enigma :=
  {| __num_walzen := __num_walzen e; __base := __base e;
     __alphabet := __alphabet e; __walzen := __walzen e;
     __umkehrwalze := __umkehrwalze e; __steckerbrett := __steckerbrett e;
     __ringkerben := rk |}.

Definition with_base (b : str) (e : Enigma) : Enigma :=
  {| __num_walzen := __num_walzen e; __base := b;
     __alphabet := __alphabet e; __walzen := __walzen e;
     __umkehrwalze := __umkehrwalze e; __steckerbrett := __steckerbrett e;
     __ringkerben := __ringkerben e |}.

(** [Enigma(num_walzen, alphabet=alphabet)], with [random=False]. *)
Definition init (num_walzen : Z) (alphabet : str) : result Enigma :=
  (a0 <- getitem alphabet 0 ;;
   Ok {| __num_walzen := num_walzen;
         __base := repeat a0 (Z.to_nat num_walzen);
         __alphabet := alphabet;
         __walzen := repeat alphabet (Z.to_nat num_walzen);
         __umkehrwalze := alphabet;
         __steckerbrett := [];
         __ringkerben := repeat (len alphabet) (Z.to_nat num_walzen) |})%res.

(** [set_walze(num, walze)] with a wiring given. *)
Definition set_walze (num : Z) (walze : str) : M Enigma unit :=
  (self <- get ;;
   if negb (len (__alphabet self) =? len walze) then raise InputError
   else if negb (forallb (fun char => contains char walze) (__alphabet self))
   then raise InputError
   else
     ws <- lift (setitem (__walzen self) num walze) ;;
     put (with_walzen ws self))%comp.

(** The last loop of [set_umkehrwalze]:
    [if alphabet[alphabet.index(char)] != char: raise InputError]. *)
Fixpoint check_umkehrwalze (alphabet walze : str) : result unit :=
  match walze with
  | [] => Ok tt
  | char :: rest =>
      (i <- index char alphabet ;;
       a <- getitem alphabet i ;;
       if negb (a =? char) then Raise InputError
       else check_umkehrwalze alphabet rest)%res
  end.

(** [set_umkehrwalze(walze)] with a wiring given. *)
Definition set_umkehrwalze (walze : str) : M Enigma unit :=
  (self <- get ;;
   if negb (len (__alphabet self) =? len walze) then raise InputError
   else if negb (forallb (fun char => contains char walze) (__alphabet self))
   then raise InputError
   else
     lift (check_umkehrwalze (__alphabet self) walze) ;;
     put (with_umkehrwalze walze self))%comp.

(** The loop of [set_steckerbrett] over [sb = ''.join(steckerbrett)]:
    [if char not in alphabet or char in sb[i+1:]: raise InputError]. *)
Fixpoint check_steckerbrett (alphabet sb : str) : bool :=
  match sb with
  | [] => true
  | char :: rest =>
      if negb (contains char alphabet) || contains char rest then false
      else check_steckerbrett alphabet rest
  end.

(** [set_steckerbrett(steckerbrett)] with a list given. *)
Definition set_steckerbrett (steckerbrett : list str) : M Enigma unit :=
  (self <- get ;;
   if check_steckerbrett (__alphabet self) (List.concat steckerbrett)
   then put (with_steckerbrett steckerbrett self)
   else raise InputError)%comp.

(** The random branch of [set_ringkerben]: [rk = [0, 0, 0]], then
    [rk[i] = random.randint(1, 26)] for each Walze; [draws] are the values
    drawn, in order. *)
Fixpoint draw_ringkerben (draws : list Z) (i : Z) (n : nat) (rk : list Z)
  : result (list Z) :=
  match n with
  | O => Ok rk
  | S n' =>
      (rk' <- setitem rk i (hd 1 draws) ;;
       draw_ringkerben (tl draws) (i + 1) n' rk')%res
  end.

(** [set_ringkerben(rk)]; the empty list is the default argument. *)
Definition set_ringkerben (draws : list Z) (rk : list Z) : M Enigma unit :=
  (self <- get ;;
   match rk with
   | [] =>
       rk' <- lift (draw_ringkerben draws 0 (Z.to_nat (__num_walzen self))
                      [0; 0; 0]) ;;
       put (with_ringkerben rk' self)
   | _ =>
       if negb (len rk =? __num_walzen self) then raise InputError
       else if existsb (fun i => (i <? 1) || (i >? 26)) rk
       then raise InputError
       else put (with_ringkerben rk self)
   end)%comp.

(** [set_base(base)]. *)
Definition set_base (base : str) : M Enigma unit :=
  (self <- get ;;
   if negb (len base =? __num_walzen self) then raise InputError
   else if negb (forallb (fun char => contains char (__alphabet self)) base)
   then raise InputError
   else put (with_base base self))%comp.

(** ** [encode] *)

(** The state of a call of [encode]: the object, the lists [walzen] and
    [count] the call builds, and [encoded_message].  The names [wlz], [sb]
    and [rk] of the source are aliases of lists of the object and are read
    from [self]. *)
Record Frame : Type := {
  self : Enigma;
  walzen : list (list Z);
  count : list Z;
  encoded_message : str
}.

Definition set_walzen (ws : list (list Z)) (fr : Frame) : Frame :=
  {| self := self fr; walzen := ws; count := count fr;
     encoded_message := encoded_message fr |}.

Definition set_count (cs : list Z) (fr : Frame) : Frame :=
  {| self := self fr; walzen := walzen fr; count := cs;
     encoded_message := encoded_message fr |}.

Definition set_encoded_message (m : str) (fr : Frame) : Frame :=
  {| self := self fr; walzen := walzen fr; count := count fr;
     encoded_message := m |}.

(** [relation_walze]: [ord(char) - 65 - j] for each [j, char]. *)
Definition relation_walze (walze : str) : list Z :=
  map (fun jc => snd jc - 65 - fst jc) (enumerate walze).

(** The body of [for i, walze in enumerate(wlz)]. *)
Definition setup_walze (iw : Z * str) : M Frame unit :=
  (fr <- get ;;
   let rel := relation_walze (snd iw) in
   b <- lift (getitem (__base (self fr)) (fst iw)) ;;
   let index := b - 65 in
   let walze := slice_from rel index ++ slice_to rel index in
   cs <- lift (setitem (count fr) (fst iw) index) ;;
   put (set_walzen (walzen fr ++ [walze]) (set_count cs fr)))%comp.

(** The letter Walze of a relation Walze:
    [chr((num + i) % len(alphabet) + 65)] for each [i, num]. *)
Definition current_walze (alphabet : str) (walze : list Z) : result str :=
  rmap (fun inum =>
          (m <- pymod (snd inum + fst inum) (len alphabet) ;;
           chr (m + 65))%res)
       (enumerate walze).

(** The Steckerbrett on the way in sets [lex_index] only. *)
Fixpoint steckerbrett_in (sb : list str) (char lex_index : Z) : result Z :=
  match sb with
  | [] => Ok lex_index
  | stecker :: sb' =>
      if contains char stecker
      then (new_char <- ord (remove_char char stecker) ;;
            Ok (new_char - 65))%res
      else steckerbrett_in sb' char lex_index
  end.

(** Through the Walzen: [new_letter = walze[lex_index]]. *)
Fixpoint forward (walzen_curr : list str) (lex_index : Z) : result Z :=
  match walzen_curr with
  | [] => Ok lex_index
  | walze :: rest =>
      (new_letter <- getitem walze lex_index ;;
       forward rest (new_letter - 65))%res
  end.

(** Back through the Walzen, given in the order they are visited:
    [index = walze.index(new_letter)], [new_letter = alphabet[index]]. *)
Fixpoint backward (alphabet : str) (walzen_rev : list str) (new_letter : Z)
  : result Z :=
  match walzen_rev with
  | [] => Ok new_letter
  | walze :: rest =>
      (i <- index new_letter walze ;;
       new_letter' <- getitem alphabet i ;;
       backward alphabet rest new_letter')%res
  end.

(** The Steckerbrett on the way out: [char = stecker.replace(char, "")]. *)
Fixpoint steckerbrett_out (sb : list str) (char : Z) : str :=
  match sb with
  | [] => [char]
  | stecker :: sb' =>
      if contains char stecker then remove_char char stecker
      else steckerbrett_out sb' char
  end.

(** The path of one letter, up to the string appended to the output. *)
Definition signal (e : Enigma) (ws : list (list Z)) (char : Z) : result str :=
  (walzen_curr <- rmap (current_walze (__alphabet e)) ws ;;
   lex_index <- steckerbrett_in (__steckerbrett e) char (char - 65) ;;
   lex_index <- forward walzen_curr lex_index ;;
   new_letter <- getitem (__umkehrwalze e) lex_index ;;
   new_letter <- backward (__alphabet e) (rev walzen_curr) new_letter ;;
   char' <- chr (new_letter - 65 + 65) ;;
   Ok (steckerbrett_out (__steckerbrett e) char'))%res.

(** [walzen[k] = walzen[k][1:] + [walzen[k][0]]]. *)
Definition rotate (k : Z) : M Frame unit :=
  (fr <- get ;;
   w <- lift (getitem (walzen fr) k) ;;
   h <- lift (getitem w 0) ;;
   ws <- lift (setitem (walzen fr) k (slice_from w 1 ++ [h])) ;;
   put (set_walzen ws fr))%comp.

(** [count[k] = count[k] % 26 + 1]; the new value is returned. *)
Definition tick (k : Z) : M Frame Z :=
  (fr <- get ;;
   c <- lift (getitem (count fr) k) ;;
   cs <- lift (setitem (count fr) k (c mod 26 + 1)) ;;
   put (set_count cs fr) ;;
   ret (c mod 26 + 1))%comp.

(** [rk[k]], read from the list of the object. *)
Definition ringkerbe (k : Z) : M Frame Z :=
  (fr <- get ;;
   lift (getitem (__ringkerben (self fr)) k))%comp.

(** The rotation after a letter. *)
Definition step : M Frame unit :=
  (rotate 0 ;;
   c0 <- tick 0 ;;
   rk0 <- ringkerbe 0 ;;
   if c0 =? rk0 then
     rotate 1 ;;
     c1 <- tick 1 ;;
     rk1 <- ringkerbe 1 ;;
     if c1 =? rk1 then rotate 2 else ret tt
   else ret tt)%comp.

(** [0 <= ord(char) - 65 <= 25]. *)
Definition is_letter (char : Z) : bool :=
  (0 <=? char - 65) && (char - 65 <=? 25).

(** The body of [for char in char_list]. *)
Definition encode_char (char : Z) : M Frame unit :=
  if is_letter char then
    (fr <- get ;;
     out <- lift (signal (self fr) (walzen fr) char) ;;
     put (set_encoded_message (encoded_message fr ++ out) fr) ;;
     step)%comp
  else ret tt.

Definition encode_setup : M Frame unit :=
  (fr <- get ;;
   for_each (enumerate (__walzen (self fr))) setup_walze)%comp.

Definition encode_loop (char_list : str) : M Frame unit :=
  for_each char_list encode_char.

Definition enter (e : Enigma) : Frame :=
  {| self := e; walzen := []; count := [0; 0; 0]; encoded_message := [] |}.

(** What a call hands back from its last frame. *)
Definition leave (r : result unit * Frame) : result str * Enigma :=
  match r with
  | (Ok _, fr) => (Ok (encoded_message fr), self fr)
  | (Raise x, fr) => (Raise x, self fr)
  end.

(** [encode(msg)]. *)
Definition encode (msg : str) : M Enigma str :=
  fun e => leave ((encode_setup ;; encode_loop (upper msg))%comp (enter e)).

(** ** The machines of the doctest *)

Definition run {A} (r : result Enigma) (m : M Enigma A) : result A * result Enigma :=
  match r with
  | Ok e => (fst (m e), Ok (snd (m e)))
  | Raise x => (Raise x, Raise x)
  end.

Definition enigma8 : result Enigma :=
  snd (run (init 3 (py "ABCDEFGH"))
         (set_walze 0 (py "BDGCAEFH") ;;
          set_walze 1 (py "FBEAGCHD") ;;
          set_walze 2 (py "FDEABGCH") ;;
          set_umkehrwalze (py "HFGEDBCA"))%comp).

Definition ABC : str := py "ABCDEFGHIJKLMNOPQRSTUVWXYZ".

Definition enigma26 : result Enigma :=
  snd (run (init 3 ABC)
         (set_walze 0 (py "BDFHJLCPRTXVZNYEIWGAKMUSQO") ;;
          set_walze 1 (py "AJDKSIRUXBLHWTMCQGZNPYFVOE") ;;
          set_walze 2 (py "EKMFLGDQVZNTOWYHXUSPAIBRCJ") ;;
          set_umkehrwalze (py "YRUHQSLDPXNGOKMIEBFZCWVJAT") ;;
          set_base (py "LCM") ;;
          set_ringkerben [] [22; 5; 1])%comp).

(** The object a sequence of calls has built. *)
Definition built (r : result Enigma) : Enigma :=
  match r with
  | Ok e => e
  | Raise _ =>
      {| __num_walzen := 0; __base := []; __alphabet := []; __walzen := [];
         __umkehrwalze := []; __steckerbrett := []; __ringkerben := [] |}
  end.

(** The 26-letter machine of the doctest with two Stecker. *)
Definition enigma26_stecker : result Enigma :=
  snd (run enigma26 (set_steckerbrett [py "AB"; py "CD"])).

(** A machine with four Walzen. *)
Definition enigma4 : result Enigma :=
  snd (run (init 4 ABC)
         (set_walze 0 (py "BDFHJLCPRTXVZNYEIWGAKMUSQO") ;;
          set_walze 1 (py "AJDKSIRUXBLHWTMCQGZNPYFVOE") ;;
          set_walze 2 (py "EKMFLGDQVZNTOWYHXUSPAIBRCJ") ;;
          set_walze 3 (py "ESOVPZJAYQUIRHXLNFTGKDCMWB") ;;
          set_umkehrwalze (py "YRUHQSLDPXNGOKMIEBFZCWVJAT"))%comp).

(** ** Well-formed machines *)

(** The first [n] capital letters. *)
Definition az (n : nat) : str := map (fun k => 65 + Z.of_nat k) (seq 0 n).

Fixpoint str_eqb (s t : str) : bool :=
  match s, t with
  | [], [] => true
  | c :: s', d :: t' => (c =? d) && str_eqb s' t'
  | _, _ => false
  end.

(** A wiring over the alphabet, as [set_walze] checks it. *)
Definition is_wiring (alphabet walze : str) : bool :=
  (len alphabet =? len walze) &&
  forallb (fun char => contains char walze) alphabet.

(** The Umkehrwalze sends the letter it gives at [i] back to the letter
    at [i]. *)
Definition is_involution (ukw : str) : bool :=
  forallb (fun ic =>
             match getitem ukw (snd ic - 65) with
             | Ok d => d =? 65 + fst ic
             | Raise _ => false
             end)
          (enumerate ukw).

(** No letter of the Umkehrwalze sits at its own place. *)
Definition no_fixed_point (alphabet ukw : str) : bool :=
  forallb (fun ac => negb (fst ac =? snd ac)) (combine alphabet ukw).

(** Every Stecker has two characters. *)
Definition are_pairs (sb : list str) : bool :=
  forallb (fun stecker => len stecker =? 2) sb.

(** A machine [encode] is written for: the alphabet is the first capital
    letters, there are three Walzen, each a wiring, the Umkehrwalze is a
    wiring and an involution, the Stecker are disjoint pairs of letters,
    the base names three letters and there are three Ringkerben. *)
Definition well_formed (e : Enigma) : bool :=
  let a := __alphabet e in
  (1 <=? len a) && (len a <=? 26) && str_eqb a (az (List.length a))
  && (len (__walzen e) =? 3) && forallb (is_wiring a) (__walzen e)
  && is_wiring a (__umkehrwalze e) && is_involution (__umkehrwalze e)
  && are_pairs (__steckerbrett e)
  && check_steckerbrett a (List.concat (__steckerbrett e))
  && (len (__base e) =? 3)
  && forallb (fun char => contains char a) (__base e)
  && (len (__ringkerben e) =? 3).

(** ** Notions used by the properties *)

(** A computation that leaves the object and the output as they are. *)
Definition quiet {A} (m : M Frame A) : Prop :=
  forall fr,
    self (snd (m fr)) = self fr /\
    encoded_message (snd (m fr)) = encoded_message fr.

(** A computation that leaves the object as it is. *)
Definition keeps_self {A} (m : M Frame A) : Prop :=
  forall fr, self (snd (m fr)) = self fr.

(** A computation that neither reads nor writes the output. *)
Definition blind {A} (m : M Frame A) : Prop :=
  forall out fr,
    m (set_encoded_message out fr)
    = (fst (m fr), set_encoded_message out (snd (m fr))).

(** The letters of the uppercased message that [encode] processes. *)
Definition letters (msg : str) : str := filter is_letter (upper msg).

(** A code point among the first [n] capital letters. *)
Definition in_range (n c : Z) : Prop := 65 <= c < 65 + n.

(** The letters a relation Walze stands for when its first entry sits at
    place [i]: the letter Walze of [current_walze] is [shown n 0]. *)
Definition shown (n i : Z) (r : list Z) : str :=
  map (fun inum => (snd inum + fst inum) mod n + 65) (enumerate_from i r).

(** One place back on the ring of [N] letters. *)
Definition dec (N c : Z) : Z := (c - 65 - 1) mod N + 65.

(** One turn of a Walze: [walze[1:] + [walze[0]]]. *)
Definition rot {A} (l : list A) : list A :=
  match l with
  | [] => []
  | x :: l' => l' ++ [x]
  end.

(** A letter Walze with each of the first [n] capital letters once. *)
Definition rotor (n : Z) (w : str) : Prop :=
  len w = n /\ NoDup w /\ Forall (in_range n) w.

(** A relation Walze whose letter Walze is a [rotor]. *)
Definition good (n : Z) (r : list Z) : Prop :=
  len r = n /\ NoDup (shown n 0 r).

(** What [well_formed] says of a machine over [n] letters. *)
Record Formed (e : Enigma) (n : nat) : Prop := {
  formed_size : (1 <= n <= 26)%nat;
  formed_alphabet : __alphabet e = az n;
  formed_count : List.length (__walzen e) = 3%nat;
  formed_walzen : Forall (rotor (Z.of_nat n)) (__walzen e);
  formed_umkehrwalze : rotor (Z.of_nat n) (__umkehrwalze e);
  formed_involution : is_involution (__umkehrwalze e) = true;
  formed_pairs : are_pairs (__steckerbrett e) = true;
  formed_disjoint : NoDup (List.concat (__steckerbrett e));
  formed_stecker :
    forall d, In d (List.concat (__steckerbrett e)) -> in_range (Z.of_nat n) d;
  formed_base : List.length (__base e) = 3%nat;
  formed_base_letters : Forall (in_range (Z.of_nat n)) (__base e);
  formed_ringkerben : List.length (__ringkerben e) = 3%nat
}.

(** A frame in the loop of a well-formed machine: three good Walzen and
    three counters. *)
Definition ready (fr : Frame) : Prop :=
  well_formed (self fr) = true /\
  List.length (walzen fr) = 3%nat /\
  Forall (good (len (__alphabet (self fr)))) (walzen fr) /\
  List.length (count fr) = 3%nat.

(** A computation that returns from every ready frame, leaves a ready
    frame and leaves the object and the output as they are. *)
Definition steady {A} (m : M Frame A) : Prop :=
  forall fr, ready fr ->
    exists a fr', m fr = (Ok a, fr') /\ ready fr' /\
                  self fr' = self fr /\
                  encoded_message fr' = encoded_message fr.

(** ** The random branches *)

(** [random.sample(population, k)]: [k] characters from different places of
    the population, in the order they are taken.  The draws say which of
    the places that are left is taken next; every outcome of the call is
    the outcome of some draws. *)
Fixpoint sample (draws : list nat) (population : str) (k : nat)
  : result str :=
  match k with
  | O => Ok []
  | S k' =>
      match population with
      | [] => Raise ValueError
      | _ :: _ =>
          let i := (hd O draws mod List.length population)%nat in
          (rest <- sample (tl draws)
                     (firstn i population ++ skipn (S i) population) k' ;;
           Ok (nth i population 0 :: rest))%res
      end
  end.

(** [set_walze(num)] without a wiring:
    [''.join(random.sample(alphabet, len(alphabet)))]. *)
Definition set_walze_random (draws : list nat) (num : Z) : M Enigma unit :=
  (self <- get ;;
   walze <- lift (sample draws (__alphabet self)
                    (List.length (__alphabet self))) ;;
   ws <- lift (setitem (__walzen self) num walze) ;;
   put (with_walzen ws self))%comp.

(** The start of a round of the loops of [set_umkehrwalze] and
    [set_steckerbrett]: [tupl = ''.join(random.sample(residual, 2))], then
    [residual] without [tupl[0]] and [tupl[1]]. *)
Definition draw_pair (draws : list nat) (residual : str)
  : result (Z * Z * str) :=
  (tupl <- sample draws residual 2 ;;
   t0 <- getitem tupl 0 ;;
   t1 <- getitem tupl 1 ;;
   Ok (t0, t1, remove_char t1 (remove_char t0 residual)))%res.

(** [uncle_walter[index_a] = tupl[1]] and [uncle_walter[index_b] = tupl[0]]
    with the places of [tupl[0]] and [tupl[1]] in the alphabet. *)
Definition swap_pair (alphabet uncle_walter : str) (t0 t1 : Z) : result str :=
  (index_a <- index t0 alphabet ;;
   index_b <- index t1 alphabet ;;
   u <- setitem uncle_walter index_a t1 ;;
   setitem u index_b t0)%res.

(** [while residual != '':] of [set_umkehrwalze], for at most [fuel]
    rounds; [None] is a loop that has not ended by then. *)
Fixpoint pair_up (fuel : nat) (draws : list (list nat))
    (alphabet residual uncle_walter : str) : option (result str) :=
  match residual with
  | [] => Some (Ok uncle_walter)
  | _ :: _ =>
      match fuel with
      | O => None
      | S fuel' =>
          match draw_pair (hd [] draws) residual with
          | Raise x => Some (Raise x)
          | Ok (t0, t1, residual') =>
              match swap_pair alphabet uncle_walter t0 t1 with
              | Raise x => Some (Raise x)
              | Ok u => pair_up fuel' (tl draws) alphabet residual' u
              end
          end
      end
  end.

(** [set_umkehrwalze()] without a wiring; the loop is given as many rounds
    as the alphabet has characters. *)
Definition set_umkehrwalze_random (draws : list (list nat)) (self : Enigma)
  : option (result unit * Enigma) :=
  match pair_up (List.length (__alphabet self)) draws (__alphabet self)
          (__alphabet self) (__alphabet self) with
  | Some (Ok u) => Some (Ok tt, with_umkehrwalze u self)
  | Some (Raise x) => Some (Raise x, self)
  | None => None
  end.

(** [while residual != '' and len(steckerbrett) < number:] of
    [set_steckerbrett], for at most [fuel] rounds. *)
Fixpoint plug_up (fuel : nat) (draws : list (list nat)) (residual : str)
    (steckerbrett : list str) (number : Z) : option (result (list str)) :=
  match residual with
  | [] => Some (Ok steckerbrett)
  | _ :: _ =>
      if len steckerbrett <? number then
        match fuel with
        | O => None
        | S fuel' =>
            match draw_pair (hd [] draws) residual with
            | Raise x => Some (Raise x)
            | Ok (t0, t1, residual') =>
                plug_up fuel' (tl draws) residual'
                  (steckerbrett ++ [[t0; t1]]) number
            end
        end
      else Some (Ok steckerbrett)
  end.

(** [set_steckerbrett(number=number)] without a list. *)
Definition set_steckerbrett_random (draws : list (list nat)) (number : Z)
    (self : Enigma) : option (result unit * Enigma) :=
  match plug_up (List.length (__alphabet self)) draws (__alphabet self) []
          number with
  | Some (Ok sb) => Some (Ok tt, with_steckerbrett sb self)
  | Some (Raise x) => Some (Raise x, self)
  | None => None
  end.

(** [for i in range(num_walzen): self.set_walze(i)] of the constructor. *)
Fixpoint set_walzen_random (dw : list (list nat)) (i : Z) (n : nat)
  : M Enigma unit :=
  match n with
  | O => ret tt
  | S n' =>
      (set_walze_random (hd [] dw) i ;;
       set_walzen_random (tl dw) (i + 1) n')%comp
  end.

(** [Enigma(num_walzen, random=True, alphabet=alphabet)]: the draws of the
    Walzen, of the Umkehrwalze, of the Steckerbrett and of the Ringkerben.
    A setter that raises makes the constructor raise. *)
Definition init_random (num_walzen : Z) (alphabet : str)
    (dw du ds : list (list nat)) (dr : list Z) : option (result Enigma) :=
  match init num_walzen alphabet with
  | Raise x => Some (Raise x)
  | Ok e0 =>
      match set_walzen_random dw 0 (Z.to_nat num_walzen) e0 with
      | (Raise x, _) => Some (Raise x)
      | (Ok _, e1) =>
          match set_umkehrwalze_random du e1 with
          | None => None
          | Some (Raise x, _) => Some (Raise x)
          | Some (Ok _, e2) =>
              match set_steckerbrett_random ds 10 e2 with
              | None => None
              | Some (Raise x, _) => Some (Raise x)
              | Some (Ok _, e3) =>
                  match set_ringkerben dr [] e3 with
                  | (Raise x, _) => Some (Raise x)
                  | (Ok _, e4) => Some (Ok e4)
                  end
              end
          end
      end
  end.

(** [u] pairs up the letters of [a]: the letter at a place of [a] is sent
    to another letter of [a], and that one is sent to the first. *)
Definition mirrors (a u : str) : Prop :=
  List.length u = List.length a /\
  forall i c, nth_error a i = Some c ->
    exists d j, nth_error u i = Some d /\ d <> c /\
                nth_error a j = Some d /\ nth_error u j = Some c.

(** Between two rounds of the loop of [set_umkehrwalze]: the letters left
    in [residual] are still at their places in [u], the others are paired
    up. *)
Definition pairing (a residual u : str) : Prop :=
  List.length u = List.length a /\ NoDup residual /\ incl residual a /\
  forall i c, nth_error a i = Some c ->
    (In c residual /\ nth_error u i = Some c) \/
    (~ In c residual /\
     exists d j, nth_error u i = Some d /\ d <> c /\ ~ In d residual /\
                 nth_error a j = Some d /\ nth_error u j = Some c).

(** Between two rounds of the loop of [set_steckerbrett]: the Stecker are
    pairs, and their letters and those left are different letters of the
    alphabet, all of them. *)
Definition plugging (a residual : str) (sb : list str) : Prop :=
  are_pairs sb = true /\
  NoDup (List.concat sb ++ residual) /\
  incl (List.concat sb ++ residual) a /\
  (2 * List.length sb + List.length residual = List.length a)%nat.

(** A computation that keeps a property of every Walze of the frame. *)
Definition keeps (P : list Z -> Prop) {A} (m : M Frame A) : Prop :=
  forall fr a fr',
    Forall P (walzen fr) -> m fr = (Ok a, fr') -> Forall P (walzen fr').

(** Two ASCII characters that are the same up to the case of a letter: the
    same character, or a capital from [A] to [Z] and its small letter. *)
Definition same_letter (a b : Z) : bool :=
  (a =? b)
  || ((65 <=? a) && (a <=? 90) && (b =? a + 32))
  || ((65 <=? b) && (b <=? 90) && (a =? b + 32)).

(** Two messages that are the same up to the case of their letters. *)
Fixpoint same_letters (m1 m2 : str) : bool :=
  match m1, m2 with
  | [], [] => true
  | a :: m1, b :: m2 => same_letter a b && same_letters m1 m2
  | _, _ => false
  end.



(** The frame after the rotation that follows a letter. *)
Definition turn (fr : Frame) : Frame := snd (step fr).

(** * Properties *)

(** ** The doctest *)

(** C2: on the machine with the alphabet [ABCDEFGH], the Walzen [BDGCAEFH],
    [FBEAGCHD], [FDEABGCH], the Umkehrwalze [HFGEDBCA], base [AAA] and no
    Steckerbrett, [encode("A")] returns ["G"]; on the 26-letter machine with
    the Walzen [BDFHJLCPRTXVZNYEIWGAKMUSQO], [AJDKSIRUXBLHWTMCQGZNPYFVOE],
    [EKMFLGDQVZNTOWYHXUSPAIBRCJ], the Umkehrwalze
    [YRUHQSLDPXNGOKMIEBFZCWVJAT], base [LCM], Ringkerben [22, 5, 1] and no
    Steckerbrett, [encode("QMJIDO MZWZJFJR")] returns ["ENIGMAREVEALED"]. *)
Theorem doctest_outputs :
  fst (run enigma8 (encode (py "A"))) = Ok (py "G") /\
  fst (run enigma26 (encode (py "QMJIDO MZWZJFJR")))
  = Ok (py "ENIGMAREVEALED").
Proof. split; vm_compute; reflexivity. Qed.

(** Both machines of the doctest are well formed, and their Umkehrwalze has
    no fixed point. *)
Lemma doctest_machines_well_formed :
  (exists e, enigma8 = Ok e /\ well_formed e = true /\
             no_fixed_point (__alphabet e) (__umkehrwalze e) = true) /\
  (exists e, enigma26 = Ok e /\ well_formed e = true /\
             no_fixed_point (__alphabet e) (__umkehrwalze e) = true).
Proof. split; eexists; (split; [reflexivity | split; vm_compute; reflexivity]). Qed.

(** ** Runs of computations *)

Lemma bind_ok {S A B} (m : M S A) (k : A -> M S B) s a s' :
  m s = (Ok a, s') -> bind m k s = k a s'.
Proof. intros H. unfold bind. now rewrite H. Qed.

Lemma bind_raise {S A B} (m : M S A) (k : A -> M S B) s x s' :
  m s = (Raise x, s') -> bind m k s = (Raise x, s').
Proof. intros H. unfold bind. now rewrite H. Qed.

Lemma for_each_app {S A} (l1 l2 : list A) (body : A -> M S unit) s :
  for_each (l1 ++ l2) body s
  = (for_each l1 body ;; for_each l2 body)%comp s.
Proof.
  revert s. induction l1 as [|a l1 IH]; intros s; simpl.
  - reflexivity.
  - unfold bind. destruct (body a s) as [[[]|x] s']; [|reflexivity].
    rewrite IH. reflexivity.
Qed.

Ltac run_cases :=
  cbv [bind get put lift ret raise]; simpl;
  repeat match goal with
         | |- context [match ?r with Ok _ => _ | Raise _ => _ end] =>
             destruct r; simpl
         | |- context [if ?b then _ else _] => destruct b; simpl
         end;
  auto.

Lemma quiet_ret {A} (a : A) : quiet (ret a).
Proof. intros fr; split; reflexivity. Qed.

Lemma quiet_bind {A B} (m : M Frame A) (k : A -> M Frame B) :
  quiet m -> (forall a, quiet (k a)) -> quiet (bind m k).
Proof.
  intros Hm Hk fr. unfold bind. destruct (Hm fr) as [H1 H2].
  destruct (m fr) as [[a|x] fr']; simpl in *.
  - destruct (Hk a fr') as [H3 H4]. split; congruence.
  - split; assumption.
Qed.

Lemma quiet_rotate k : quiet (rotate k).
Proof. intros fr. unfold rotate. run_cases. Qed.

Lemma quiet_tick k : quiet (tick k).
Proof. intros fr. unfold tick. run_cases. Qed.

Lemma quiet_ringkerbe k : quiet (ringkerbe k).
Proof. intros fr. unfold ringkerbe. run_cases. Qed.

Lemma quiet_step : quiet step.
Proof.
  unfold step.
  repeat first
    [ apply quiet_rotate | apply quiet_tick | apply quiet_ringkerbe
    | apply quiet_ret | apply quiet_bind
    | match goal with
      | |- forall _, quiet _ => intro
      | |- quiet (if ?b then _ else _) => destruct b
      end ].
Qed.

Lemma quiet_setup_walze iw : quiet (setup_walze iw).
Proof. intros fr. unfold setup_walze. run_cases. Qed.

Lemma quiet_for_each {A} (l : list A) (body : A -> M Frame unit) :
  (forall a, quiet (body a)) -> quiet (for_each l body).
Proof.
  intros H. induction l; simpl.
  - apply quiet_ret.
  - apply quiet_bind; auto.
Qed.

Lemma quiet_encode_setup : quiet encode_setup.
Proof.
  intros fr. unfold encode_setup, bind, get.
  apply quiet_for_each. apply quiet_setup_walze.
Qed.

Lemma keeps_self_bind {A B} (m : M Frame A) (k : A -> M Frame B) :
  keeps_self m -> (forall a, keeps_self (k a)) -> keeps_self (bind m k).
Proof.
  intros Hm Hk fr. unfold bind. specialize (Hm fr).
  destruct (m fr) as [[a|x] fr']; simpl in *.
  - rewrite Hk. assumption.
  - assumption.
Qed.

Lemma quiet_keeps_self {A} (m : M Frame A) : quiet m -> keeps_self m.
Proof. intros H fr. apply H. Qed.

Lemma keeps_self_encode_char char : keeps_self (encode_char char).
Proof.
  intros fr. unfold encode_char. destruct (is_letter char); [|reflexivity].
  unfold bind at 1. unfold get. unfold bind at 1. unfold lift.
  destruct (signal (self fr) (walzen fr) char) as [out|x]; [|reflexivity].
  unfold bind, put.
  now destruct (quiet_step (set_encoded_message (encoded_message fr ++ out) fr)).
Qed.

Lemma keeps_self_encode_loop l : keeps_self (encode_loop l).
Proof.
  unfold encode_loop. induction l; simpl.
  - intros fr. reflexivity.
  - apply keeps_self_bind; auto using keeps_self_encode_char.
Qed.

Lemma leave_self r : snd (leave r) = self (snd r).
Proof. destruct r as [[[]|x] fr]; reflexivity. Qed.

Lemma encode_self msg e : snd (encode msg e) = e.
Proof.
  unfold encode. rewrite leave_self.
  apply (@keeps_self_bind _ _ encode_setup
           (fun _ => encode_loop (upper msg))).
  - apply quiet_keeps_self, quiet_encode_setup.
  - intros _. apply keeps_self_encode_loop.
Qed.

(** ** [encode] and the object *)

(** C10: [encode] leaves every field of the object as it was, whether it
    returns or raises: the Walzen positions live in the frame of the call.
    Hence a second [encode(m)] on the object the first one left behind gives
    what the first one gave. *)
Theorem encode_leaves_object msg e :
  snd (encode msg e) = e /\
  fst (encode msg (snd (encode msg e))) = fst (encode msg e).
Proof.
  split.
  - apply encode_self.
  - rewrite encode_self. reflexivity.
Qed.

(** ** Characters that are not capital letters *)

Lemma encode_char_letter char fr :
  is_letter char = true ->
  encode_char char fr
  = match signal (self fr) (walzen fr) char with
    | Ok out => step (set_encoded_message (encoded_message fr ++ out) fr)
    | Raise x => (Raise x, fr)
    end.
Proof.
  intros H. unfold encode_char. rewrite H.
  unfold bind, get, lift, put.
  destruct (signal (self fr) (walzen fr) char); reflexivity.
Qed.

Lemma encode_char_other char fr :
  is_letter char = false -> encode_char char fr = (Ok tt, fr).
Proof. intros H. unfold encode_char. now rewrite H. Qed.

Lemma encode_loop_skip l1 char l2 fr :
  is_letter char = false ->
  encode_loop (l1 ++ char :: l2) fr = encode_loop (l1 ++ l2) fr.
Proof.
  intros H. unfold encode_loop. rewrite !for_each_app.
  unfold bind. destruct (for_each l1 encode_char fr) as [[[]|x] fr1];
    [|reflexivity].
  simpl. unfold bind. now rewrite encode_char_other.
Qed.

(** C4, as the code has it: in an ASCII message a character whose capital
    is not one of [A] to [Z] (a space, a digit) turns no Walze and raises
    nothing, and it is left out of the output: the call gives what it gives
    on the message without that character. *)
Theorem other_character_left_out e m1 char m2 :
  isascii (m1 ++ char :: m2) = true ->
  is_letter (upper_char char) = false ->
  (forall fr, encode_char (upper_char char) fr = (Ok tt, fr)) /\
  encode (m1 ++ char :: m2) e = encode (m1 ++ m2) e.
Proof.
  intros _ H. split.
  - intros fr. now apply encode_char_other.
  - unfold encode, upper. rewrite !map_app. simpl.
    unfold bind. destruct (encode_setup (enter e)) as [[[]|x] fr0];
      [|reflexivity].
    now rewrite encode_loop_skip.
Qed.

Lemma other_character_left_out_witness :
  isascii (py "QMJIDO" ++ 32 :: py "MZWZJFJR") = true /\
  is_letter (upper_char 32) = false /\
  forall e, encode (py "QMJIDO" ++ 32 :: py "MZWZJFJR") e
            = encode (py "QMJIDO" ++ py "MZWZJFJR") e.
Proof.
  split; [reflexivity|]. split; [reflexivity|].
  intros e. apply (other_character_left_out e (py "QMJIDO") 32 (py "MZWZJFJR")).
  - reflexivity.
  - reflexivity.
Defined.

(** The space of the doctest message is a character outside the alphabet,
    and the output does not have it at its place. *)
Lemma space_not_kept :
  fst (run enigma26 (encode (py "QMJIDO MZWZJFJR")))
  = Ok (py "ENIGMAREVEALED") /\
  nth_error (py "QMJIDO MZWZJFJR") 6 = Some 32 /\
  contains 32 ABC = false /\
  nth_error (py "ENIGMAREVEALED") 6 <> Some 32.
Proof.
  split; [vm_compute; reflexivity|].
  split; [reflexivity|].
  split; [reflexivity|].
  vm_compute. discriminate.
Qed.

(** A capital letter outside a shorter alphabet is not passed through
    either: it is sent into the Walzen. *)
Example letter_outside_alphabet :
  fst (run enigma8 (encode (py "Z"))) = Raise IndexError.
Proof. vm_compute. reflexivity. Qed.

(** ** The length of the output *)

(** The doctest message has 15 characters and its output 14. *)
Lemma output_shorter :
  exists out,
    fst (run enigma26 (encode (py "QMJIDO MZWZJFJR"))) = Ok out /\
    List.length out <> List.length (py "QMJIDO MZWZJFJR").
Proof.
  exists (py "ENIGMAREVEALED").
  split; [vm_compute; reflexivity|].
  vm_compute. discriminate.
Qed.

Lemma contains_In c s : contains c s = true <-> In c s.
Proof.
  unfold contains. rewrite existsb_exists. split.
  - intros (d & Hd & E). apply Z.eqb_eq in E. now subst.
  - intros H. exists c. split; [assumption|apply Z.eqb_refl].
Qed.

Lemma contains_not_In c s : contains c s = false <-> ~ In c s.
Proof.
  rewrite <- contains_In. destruct (contains c s); split; intros;
    congruence.
Qed.

Lemma check_steckerbrett_spec alphabet sb :
  check_steckerbrett alphabet sb = true ->
  NoDup sb /\ forall c, In c sb -> In c alphabet.
Proof.
  induction sb as [|c sb IH]; simpl.
  - intros _. split; [constructor|intros ? []].
  - destruct (contains c alphabet) eqn:Ha; simpl; [|discriminate].
    destruct (contains c sb) eqn:Hs; [discriminate|].
    intros H. destruct (IH H) as [Hn Hi].
    apply contains_In in Ha. apply contains_not_In in Hs.
    split.
    + now constructor.
    + intros d [<-|Hd]; auto.
Qed.

Lemma len_2 {A} (l : list A) :
  (len l =? 2) = true -> exists a b, l = [a; b].
Proof.
  unfold len. intros H. apply Z.eqb_eq in H.
  destruct l as [|a [|b [|c l]]]; simpl in H; try lia.
  now exists a, b.
Qed.

(** A Stecker of two different characters, hit by one of them, leaves the
    other. *)
Lemma remove_char_pair a b c :
  a <> b -> In c [a; b] ->
  (c = a /\ remove_char c [a; b] = [b]) \/
  (c = b /\ remove_char c [a; b] = [a]).
Proof.
  intros Hab [<-|[<-|[]]]; [left|right]; split; trivial;
    unfold remove_char; simpl; rewrite Z.eqb_refl; simpl.
  - destruct (Z.eqb_spec b a); [congruence|reflexivity].
  - destruct (Z.eqb_spec a b); [congruence|reflexivity].
Qed.

Lemma steckerbrett_out_length sb char :
  are_pairs sb = true ->
  NoDup (List.concat sb) ->
  List.length (steckerbrett_out sb char) = 1%nat.
Proof.
  induction sb as [|stecker sb IH]; simpl; [reflexivity|].
  intros Hp Hn. apply andb_prop in Hp. destruct Hp as [H2 Hp].
  destruct (len_2 _ H2) as (a & b & ->).
  simpl in Hn. inversion Hn as [|? ? Hna Hn']; subst.
  inversion Hn' as [|? ? _ Hn'']; subst.
  assert (Hab : a <> b) by (intros ->; apply Hna; now left).
  destruct (contains char [a; b]) eqn:Hin.
  - apply contains_In in Hin.
    destruct (remove_char_pair a b char Hab Hin) as [[_ ->]|[_ ->]]; reflexivity.
  - now apply IH.
Qed.

Lemma encode_char_length char fr fr' :
  are_pairs (__steckerbrett (self fr)) = true ->
  NoDup (List.concat (__steckerbrett (self fr))) ->
  encode_char char fr = (Ok tt, fr') ->
  self fr' = self fr /\
  List.length (encoded_message fr')
  = (List.length (encoded_message fr)
     + if is_letter char then 1 else 0)%nat.
Proof.
  intros Hp Hn H.
  destruct (is_letter char) eqn:Hl.
  - rewrite encode_char_letter in H by assumption.
    destruct (signal (self fr) (walzen fr) char) as [out|x] eqn:Hs;
      [|discriminate].
    destruct (quiet_step (set_encoded_message (encoded_message fr ++ out) fr))
      as [H1 H2].
    rewrite H in H1, H2. simpl in H1, H2. split; [assumption|].
    rewrite H2, length_app. f_equal.
    unfold signal in Hs.
    repeat match type of Hs with
           | rbind ?r _ = Ok _ => destruct r; simpl in Hs; [|discriminate]
           end.
    injection Hs as <-. now apply steckerbrett_out_length.
  - rewrite encode_char_other in H by assumption.
    injection H as <-. split; [reflexivity|lia].
Qed.

Lemma encode_loop_length l : forall fr fr',
  are_pairs (__steckerbrett (self fr)) = true ->
  NoDup (List.concat (__steckerbrett (self fr))) ->
  encode_loop l fr = (Ok tt, fr') ->
  List.length (encoded_message fr')
  = (List.length (encoded_message fr) + List.length (filter is_letter l))%nat.
Proof.
  unfold encode_loop.
  induction l as [|char l IH]; intros fr fr' Hp Hn H; simpl in *.
  - injection H as <-. lia.
  - unfold bind in H.
    destruct (encode_char char fr) as [[[]|x] fr1] eqn:H1; [|discriminate].
    destruct (encode_char_length _ _ _ Hp Hn H1) as [Hs Hl].
    rewrite <- Hs in Hp, Hn.
    rewrite (IH _ _ Hp Hn H), Hl.
    destruct (is_letter char); simpl; lia.
Qed.

(** C3, as the code has it: for an ASCII message, when the Stecker are
    pairs of different characters and [encode] returns, the output has one
    character for each character of the uppercased message from [A] to
    [Z], and none for the others. *)
Theorem encode_length e msg out :
  isascii msg = true ->
  are_pairs (__steckerbrett e) = true ->
  check_steckerbrett (__alphabet e) (List.concat (__steckerbrett e)) = true ->
  fst (encode msg e) = Ok out ->
  List.length out = List.length (letters msg).
Proof.
  intros _ Hp Hn H. apply check_steckerbrett_spec in Hn. destruct Hn as [Hn _].
  unfold encode, bind in H.
  destruct (quiet_encode_setup (enter e)) as [H1 H2].
  destruct (encode_setup (enter e)) as [[[]|x] fr0]; simpl in *;
    [|discriminate].
  destruct (encode_loop (upper msg) fr0) as [[[]|x] fr1] eqn:Hloop;
    simpl in H; [|discriminate].
  injection H as <-.
  rewrite <- H1 in Hp, Hn.
  rewrite (encode_loop_length _ _ _ Hp Hn Hloop), H2. reflexivity.
Qed.

Lemma encode_length_witness :
  exists out,
    fst (encode (py "Hello, world") (built enigma26_stecker)) = Ok out /\
    List.length out = List.length (letters (py "Hello, world")).
Proof.
  exists (py "CLTAAQVPQB").
  assert (H : fst (encode (py "Hello, world") (built enigma26_stecker))
              = Ok (py "CLTAAQVPQB")) by (vm_compute; reflexivity).
  split; [exact H|].
  apply (encode_length (built enigma26_stecker) (py "Hello, world")).
  - vm_compute; reflexivity.
  - vm_compute; reflexivity.
  - vm_compute; reflexivity.
  - exact H.
Defined.

(** ** A second call *)

Lemma bind_assoc {S A B C} (m : M S A) (k : A -> M S B) (h : B -> M S C) s :
  bind (bind m k) h s = bind m (fun a => bind (k a) h) s.
Proof.
  unfold bind. destruct (m s) as [[a|x] s']; [|reflexivity].
  reflexivity.
Qed.




(** ** The constructor *)

(** The default machine is built although its Umkehrwalze is the alphabet
    itself, where every letter is a fixed point, and it encodes. *)
Lemma default_machine_is_built :
  exists e,
    init 3 ABC = Ok e /\
    no_fixed_point (__alphabet e) (__umkehrwalze e) = false /\
    fst (encode (py "HELLO") e) = Ok (py "HELLO").
Proof.
  eexists. split; [reflexivity|].
  split; vm_compute; reflexivity.
Qed.

(** C7, as the code has it: the constructor checks nothing.  For every
    number of Walzen and every alphabet with a first character it returns
    the machine whose Walzen and Umkehrwalze are the alphabet itself, with
    no Stecker; no error of configuration is raised. *)
Theorem init_checks_nothing num_walzen alphabet :
  alphabet <> [] ->
  exists e,
    init num_walzen alphabet = Ok e /\
    __alphabet e = alphabet /\
    __umkehrwalze e = alphabet /\
    __walzen e = repeat alphabet (Z.to_nat num_walzen) /\
    __steckerbrett e = [] /\
    __ringkerben e = repeat (len alphabet) (Z.to_nat num_walzen).
Proof.
  intros H. destruct alphabet as [|a0 rest]; [congruence|].
  eexists. split; [reflexivity|]. simpl. repeat split.
Qed.

Lemma init_checks_nothing_witness :
  exists e,
    init 3 (py "AA") = Ok e /\
    __alphabet e = py "AA" /\
    __umkehrwalze e = py "AA" /\
    __walzen e = repeat (py "AA") (Z.to_nat 3) /\
    __steckerbrett e = [] /\
    __ringkerben e = repeat (len (py "AA")) (Z.to_nat 3).
Proof.
  apply (init_checks_nothing 3 (py "AA")). vm_compute. discriminate.
Defined.

(** ** The setters *)

Lemma len_eqb {A B} (l : list A) (l' : list B) :
  (len l =? len l') = true <-> List.length l = List.length l'.
Proof. unfold len. rewrite Z.eqb_eq. lia. Qed.

Lemma forallb_contains a w :
  forallb (fun char => contains char w) a = true <-> incl a w.
Proof.
  rewrite forallb_forall. unfold incl.
  split; intros H c Hc; apply contains_In; auto.
Qed.

Lemma is_wiring_Permutation a w :
  NoDup a -> is_wiring a w = true <-> Permutation a w.
Proof.
  intros Hn. unfold is_wiring.
  rewrite andb_true_iff, len_eqb, forallb_contains. split.
  - intros [Hl Hi]. apply NoDup_Permutation_bis; auto. lia.
  - intros Hp. split.
    + now apply Permutation_length.
    + intros c. now apply Permutation_in.
Qed.

Lemma set_walze_run num walze e :
  set_walze num walze e
  = if is_wiring (__alphabet e) walze
    then match setitem (__walzen e) num walze with
         | Ok ws => (Ok tt, with_walzen ws e)
         | Raise x => (Raise x, e)
         end
    else (Raise InputError, e).
Proof.
  unfold set_walze, is_wiring, bind, get, raise, lift, put.
  destruct (len (__alphabet e) =? len walze); simpl; [|reflexivity].
  destruct (forallb _ (__alphabet e)); simpl; [|reflexivity].
  destruct (setitem (__walzen e) num walze); reflexivity.
Qed.

Lemma setitem_IndexError {A} (l : list A) i v x :
  setitem l i v = Raise x -> x = IndexError.
Proof.
  unfold setitem. destruct (_ || _); [|discriminate]. congruence.
Qed.

(** C9: over an alphabet of different characters, [set_walze] with a wiring
    given raises [InputError] exactly when the wiring is not a permutation
    of the alphabet; when it raises, the object is left as it was, so a
    wiring that misses a character of the alphabet is refused and the Walze
    is not set. *)
Theorem set_walze_checks e num walze :
  NoDup (__alphabet e) ->
  (fst (set_walze num walze e) = Raise InputError
   <-> ~ Permutation (__alphabet e) walze) /\
  (fst (set_walze num walze e) = Raise InputError ->
   snd (set_walze num walze e) = e) /\
  (forall char, In char (__alphabet e) -> ~ In char walze ->
                set_walze num walze e = (Raise InputError, e)).
Proof.
  intros Hn. rewrite set_walze_run.
  pose proof (is_wiring_Permutation _ walze Hn) as Hw.
  destruct (is_wiring (__alphabet e) walze).
  - assert (Hp : Permutation (__alphabet e) walze) by now apply Hw.
    assert (Hr : fst (match setitem (__walzen e) num walze with
                      | Ok ws => (Ok tt, with_walzen ws e)
                      | Raise x => (Raise x, e)
                      end) <> Raise InputError).
    { destruct (setitem (__walzen e) num walze) eqn:Hs; simpl;
        [discriminate|].
      apply setitem_IndexError in Hs. subst. discriminate. }
    split; [|split].
    + split; intros; contradiction.
    + intros; contradiction.
    + intros char Hin Hout. exfalso. apply Hout.
      now apply Permutation_in with (l := __alphabet e).
  - split; [|split]; simpl; trivial.
    split; trivial. intros _ Hp. apply Hw in Hp. discriminate.
Qed.

Lemma set_walze_checks_witness :
  NoDup (__alphabet (built enigma8)) /\
  set_walze 0 (py "BDGCAEFA") (built enigma8)
  = (Raise InputError, built enigma8).
Proof.
  assert (Hn : NoDup (__alphabet (built enigma8))).
  { vm_compute. repeat constructor; simpl; intuition discriminate. }
  split; [exact Hn|].
  apply (proj2 (proj2 (set_walze_checks (built enigma8) 0 (py "BDGCAEFA") Hn))
           72).
  - vm_compute. intuition.
  - vm_compute. intuition discriminate.
Defined.

Lemma find_from_getitem c s : forall i j,
  0 <= i -> find_from c s i = Ok j ->
  i <= j < i + len s /\ nth_error s (Z.to_nat (j - i)) = Some c.
Proof.
  unfold len. induction s as [|d s IH]; intros i j Hi H; simpl in H.
  - discriminate.
  - destruct (Z.eqb_spec d c) as [->|Hdc].
    + injection H as <-. rewrite Z.sub_diag. simpl. split; [lia|reflexivity].
    + apply IH in H; [|lia]. destruct H as [Hj Hn].
      simpl List.length. split; [lia|].
      replace (Z.to_nat (j - i)) with (S (Z.to_nat (j - (i + 1)))) by lia.
      exact Hn.
Qed.

Lemma getitem_nth {A} (l : list A) i :
  0 <= i ->
  getitem l i = match nth_error l (Z.to_nat i) with
                | Some a => Ok a
                | None => Raise IndexError
                end.
Proof.
  intros Hi. unfold getitem.
  destruct (Z.ltb_spec i 0); [lia|].
  destruct (Z.ltb_spec i 0); [lia|reflexivity].
Qed.

Lemma index_getitem c s j : index c s = Ok j -> 0 <= j /\ getitem s j = Ok c.
Proof.
  intros H. apply find_from_getitem in H; [|lia]. destruct H as [Hj Hn].
  split; [lia|]. rewrite getitem_nth by lia.
  rewrite Z.sub_0_r in Hn. now rewrite Hn.
Qed.

(** The last loop of [set_umkehrwalze] compares a character with itself:
    it never raises [InputError]. *)
Lemma check_umkehrwalze_never_refuses alphabet walze :
  check_umkehrwalze alphabet walze <> Raise InputError.
Proof.
  induction walze as [|char rest IH]; simpl; [discriminate|].
  destruct (index char alphabet) as [i|x] eqn:Hi; simpl.
  - destruct (index_getitem _ _ _ Hi) as [_ ->]. simpl.
    now rewrite Z.eqb_refl.
  - unfold index in Hi. clear IH.
    assert (Hx : forall s k, find_from char s k = Raise x -> x = ValueError).
    { induction s as [|d s IHs]; intros k; simpl; [congruence|].
      destruct (d =? char); [discriminate|apply IHs]. }
    apply Hx in Hi. subst. discriminate.
Qed.

(** C6 at the failing inputs: over the alphabet [ABCDEFGH],
    [set_umkehrwalze] takes the wiring [ABCDEFGH], where every letter is a
    fixed point, and the wiring [BCDEFGHA], which is not its own inverse,
    and stores them. *)
Theorem set_umkehrwalze_takes_any_wiring :
  (fst (run (init 3 (py "ABCDEFGH")) (set_umkehrwalze (py "ABCDEFGH"))) = Ok tt
   /\ __umkehrwalze
        (built (snd (run (init 3 (py "ABCDEFGH"))
                       (set_umkehrwalze (py "ABCDEFGH")))))
      = py "ABCDEFGH"
   /\ no_fixed_point (py "ABCDEFGH") (py "ABCDEFGH") = false) /\
  (fst (run (init 3 (py "ABCDEFGH")) (set_umkehrwalze (py "BCDEFGHA"))) = Ok tt
   /\ __umkehrwalze
        (built (snd (run (init 3 (py "ABCDEFGH"))
                       (set_umkehrwalze (py "BCDEFGHA")))))
      = py "BCDEFGHA"
   /\ is_involution (py "BCDEFGHA") = false).
Proof. repeat split; vm_compute; reflexivity. Qed.

(** On the 8-letter machine the Ringkerbe 22 is taken although the alphabet
    has 8 letters; over an alphabet of 30 characters the Ringkerbe 28 is
    refused. *)
Lemma ringkerben_bound_is_26 :
  (len (__alphabet (built enigma8)) = 8 /\
   set_ringkerben [] [22; 5; 1] (built enigma8)
   = (Ok tt, with_ringkerben [22; 5; 1] (built enigma8))) /\
  (len (__alphabet (built (init 3 (az 30)))) = 30 /\
   set_ringkerben [] [28; 1; 1] (built (init 3 (az 30)))
   = (Raise InputError, built (init 3 (az 30)))).
Proof. repeat split; vm_compute; reflexivity. Qed.

(** C8, as the code has it: [set_ringkerben] with a list that is not empty
    takes it and stores it when it has one value for each Walze and every
    value lies between 1 and 26, and raises [InputError], leaving the object
    as it was, otherwise; the bound is 26 whatever the alphabet. *)
Theorem set_ringkerben_checks draws rk e :
  rk <> [] ->
  (len rk = __num_walzen e /\ Forall (fun i => 1 <= i <= 26) rk ->
   set_ringkerben draws rk e = (Ok tt, with_ringkerben rk e)) /\
  (len rk <> __num_walzen e \/ Exists (fun i => i < 1 \/ 26 < i) rk ->
   set_ringkerben draws rk e = (Raise InputError, e)).
Proof.
  intros Hne. destruct rk as [|v rk]; [congruence|].
  unfold set_ringkerben, bind, get, raise, put.
  set (l := v :: rk). clearbody l.
  split.
  - intros [Hl Hf]. rewrite Hl, Z.eqb_refl. simpl.
    assert (He : existsb (fun i => (i <? 1) || (i >? 26)) l = false).
    { apply not_true_is_false. intros H.
      apply existsb_exists in H. destruct H as (i & Hi & Hb).
      rewrite Forall_forall in Hf. specialize (Hf i Hi).
      apply orb_prop in Hb. destruct Hb as [Hb|Hb].
      - apply Z.ltb_lt in Hb. lia.
      - apply Z.gtb_lt in Hb. lia. }
    now rewrite He.
  - intros [Hl|Hx].
    + destruct (Z.eqb_spec (len l) (__num_walzen e)); [contradiction|].
      reflexivity.
    + destruct (len l =? __num_walzen e); simpl; [|reflexivity].
      assert (He : existsb (fun i => (i <? 1) || (i >? 26)) l = true).
      { apply existsb_exists. apply Exists_exists in Hx.
        destruct Hx as (i & Hi & Hb). exists i. split; [assumption|].
        apply orb_true_iff. destruct Hb; [left|right].
        - now apply Z.ltb_lt.
        - apply Z.gtb_lt. lia. }
      now rewrite He.
Qed.

Lemma set_ringkerben_checks_witness :
  set_ringkerben [] [22; 5; 1] (built enigma26)
  = (Ok tt, with_ringkerben [22; 5; 1] (built enigma26)) /\
  set_ringkerben [] [27; 5; 1] (built enigma26)
  = (Raise InputError, built enigma26).
Proof.
  split.
  - apply (proj1 (set_ringkerben_checks [] [22; 5; 1] (built enigma26)
                    ltac:(discriminate))).
    split; [reflexivity|]. repeat constructor; lia.
  - apply (proj2 (set_ringkerben_checks [] [27; 5; 1] (built enigma26)
                    ltac:(discriminate))).
    right. constructor. lia.
Defined.

(** ** The alphabet and the letter Walzen *)

#[local] Arguments Z.add _ _ : simpl never.
#[local] Arguments Z.sub _ _ : simpl never.
#[local] Arguments Z.modulo _ _ : simpl never.
#[local] Arguments Z.of_nat _ : simpl never.
#[local] Arguments Z.to_nat _ : simpl never.

Lemma str_eqb_eq s : forall t, str_eqb s t = true -> s = t.
Proof.
  induction s as [|c s IH]; intros [|d t]; simpl; try discriminate; trivial.
  intros H. apply andb_prop in H. destruct H as [Hc Hs].
  apply Z.eqb_eq in Hc. f_equal; auto.
Qed.

Lemma az_length n : List.length (az n) = n.
Proof. unfold az. now rewrite length_map, length_seq. Qed.

Lemma az_In n c : In c (az n) <-> in_range (Z.of_nat n) c.
Proof.
  unfold az, in_range. rewrite in_map_iff. split.
  - intros (k & <- & Hk). apply in_seq in Hk. lia.
  - intros Hc. exists (Z.to_nat (c - 65)). split; [lia|].
    apply in_seq. lia.
Qed.

Lemma az_NoDup n : NoDup (az n).
Proof.
  unfold az. apply NoDup_map_NoDup_ForallPairs; [|apply seq_NoDup].
  intros x y _ _ H. lia.
Qed.

Lemma az_getitem n i :
  0 <= i < Z.of_nat n -> getitem (az n) i = Ok (65 + i).
Proof.
  intros Hi. rewrite getitem_nth by lia. unfold az.
  rewrite nth_error_map, nth_error_seq.
  destruct (Nat.ltb_spec (Z.to_nat i) n); [|lia].
  unfold option_map. f_equal. lia.
Qed.

Lemma getitem_Some {A} (l : list A) i :
  0 <= i < len l -> exists a, getitem l i = Ok a /\ In a l.
Proof.
  unfold len. intros Hi. rewrite getitem_nth by lia.
  destruct (nth_error l (Z.to_nat i)) as [a|] eqn:Hn.
  - exists a. split; [reflexivity|]. eapply nth_error_In; eassumption.
  - apply nth_error_None in Hn. lia.
Qed.

Lemma find_from_nth c s : forall k i,
  NoDup s -> nth_error s k = Some c -> find_from c s i = Ok (i + Z.of_nat k).
Proof.
  induction s as [|d s IH]; intros [|k] i Hn H; simpl in *; try discriminate.
  - injection H as ->. rewrite Z.eqb_refl. f_equal. lia.
  - inversion Hn as [|? ? Hd Hn']; subst.
    destruct (Z.eqb_spec d c) as [->|_].
    + exfalso. apply Hd. eapply nth_error_In; eassumption.
    + rewrite (IH k (i + 1) Hn' H). f_equal. lia.
Qed.

Lemma getitem_index s i c :
  NoDup s -> 0 <= i -> getitem s i = Ok c -> index c s = Ok i.
Proof.
  intros Hn Hi H. rewrite getitem_nth in H by lia.
  destruct (nth_error s (Z.to_nat i)) eqn:Hnth; [|discriminate].
  injection H as ->. unfold index.
  rewrite (find_from_nth _ _ _ 0 Hn Hnth). f_equal. lia.
Qed.

Lemma In_index c s :
  In c s -> exists i, 0 <= i < len s /\ index c s = Ok i /\ getitem s i = Ok c.
Proof.
  intros H. unfold index.
  assert (Hf : forall k, exists i, find_from c s k = Ok i).
  { induction s as [|d s IH]; [destruct H|]. intros k. simpl.
    destruct (Z.eqb_spec d c) as [->|Hdc]; [eauto|].
    destruct H as [->|H]; [congruence|]. apply IH, H. }
  destruct (Hf 0) as [i Hi]. exists i.
  pose proof (find_from_getitem _ _ _ _ (Z.le_refl 0) Hi) as [Hb _].
  destruct (index_getitem _ _ _ Hi) as [_ Hg].
  repeat split; try lia; assumption.
Qed.

Lemma rotor_of_wiring n w :
  is_wiring (az n) w = true -> rotor (Z.of_nat n) w.
Proof.
  intros H. apply is_wiring_Permutation in H; [|apply az_NoDup].
  unfold rotor, len.
  rewrite <- (Permutation_length H), az_length. split; [reflexivity|].
  split.
  - eapply Permutation_NoDup; [eassumption|apply az_NoDup].
  - apply Forall_forall. intros c Hc. apply az_In.
    apply Permutation_in with (l := w); [|assumption].
    now apply Permutation_sym.
Qed.

Lemma rotor_has n w c : 0 <= n -> rotor n w -> in_range n c -> In c w.
Proof.
  intros Hn0 (Hl & Hn & Hf) Hc. unfold len in Hl.
  assert (Hi : incl (az (Z.to_nat n)) w).
  { apply NoDup_length_incl; [assumption| |].
    - rewrite az_length. lia.
    - intros d Hd. apply az_In. rewrite Z2Nat.id by lia.
      rewrite Forall_forall in Hf. auto. }
  apply Hi, az_In. now rewrite Z2Nat.id by lia.
Qed.

(** Through a Walze and back. *)
Lemma rotor_there n w x :
  rotor n w -> 0 <= x < n ->
  exists c, getitem w x = Ok c /\ in_range n c /\ index c w = Ok x.
Proof.
  intros (Hl & Hn & Hf) Hx.
  destruct (getitem_Some w x) as (c & Hg & Hin); [lia|].
  exists c. rewrite Forall_forall in Hf.
  repeat split; auto; try apply Hf; auto.
  apply getitem_index; auto; lia.
Qed.

Lemma rotor_back n w c :
  rotor n w -> in_range n c ->
  exists i, 0 <= i < n /\ index c w = Ok i /\ getitem w i = Ok c.
Proof.
  intros Hr Hc. assert (Hn0 : 0 <= n) by (unfold in_range in Hc; lia).
  pose proof (rotor_has n w c Hn0 Hr Hc) as Hin.
  destruct Hr as (Hl & _). rewrite <- Hl. now apply In_index.
Qed.

(** ** The path of a letter *)

Section Path.

Variable n : nat.
Let a : str := az n.
Let N : Z := Z.of_nat n.

Lemma backward_app l1 l2 c :
  backward a (l1 ++ l2) c = rbind (backward a l1 c) (backward a l2).
Proof.
  revert c. induction l1 as [|w l1 IH]; intros c; simpl; [reflexivity|].
  destruct (index c w) as [i|x]; simpl; [|reflexivity].
  destruct (getitem a i) as [d|x]; simpl; [|reflexivity].
  apply IH.
Qed.

(** The way there is undone by the way back... *)
Lemma forward_backward ws : forall x,
  Forall (rotor N) ws -> 0 <= x < N ->
  exists y, 0 <= y < N /\ forward ws x = Ok y /\
            backward a (rev ws) (y + 65) = Ok (x + 65).
Proof.
  induction ws as [|w ws IH]; intros x Hws Hx; simpl.
  - exists x. auto.
  - inversion Hws as [|? ? Hw Hws']; subst.
    destruct (rotor_there N w x Hw Hx) as (c & Hg & Hc & Hi).
    rewrite Hg. simpl.
    destruct (IH (c - 65) Hws') as (y & Hy & Hf & Hb);
      [unfold in_range in Hc; lia|].
    exists y. rewrite backward_app, Hb. simpl.
    replace (c - 65 + 65) with c by lia. rewrite Hi. simpl.
    subst a N. rewrite az_getitem by lia. simpl.
    repeat split; try lia; try assumption. f_equal. lia.
Qed.

(** ... and the way back by the way there. *)
Lemma backward_forward ws : forall c,
  Forall (rotor N) ws -> in_range N c ->
  exists d, in_range N d /\ backward a (rev ws) c = Ok d /\
            forward ws (d - 65) = Ok (c - 65).
Proof.
  induction ws as [|w ws IH]; intros c Hws Hc; simpl.
  - exists c. auto.
  - inversion Hws as [|? ? Hw Hws']; subst.
    destruct (IH c Hws' Hc) as (d' & Hd' & Hb & Hf).
    destruct (rotor_back N w d' Hw Hd') as (i & Hi & Hx & Hg).
    exists (65 + i). rewrite backward_app, Hb. simpl. rewrite Hx. simpl.
    subst a N. rewrite az_getitem by lia. simpl.
    replace (65 + i - 65) with i by lia. rewrite Hg. simpl.
    unfold in_range. repeat split; try lia; assumption.
Qed.

(** The Steckerbrett, once its Stecker are disjoint pairs of letters. *)
Lemma steckerbrett_swaps sb : forall c,
  are_pairs sb = true -> NoDup (List.concat sb) ->
  (forall d, In d (List.concat sb) -> in_range N d) ->
  exists d,
    steckerbrett_out sb c = [d] /\
    steckerbrett_in sb c (c - 65) = Ok (d - 65) /\
    steckerbrett_out sb d = [c] /\
    (d = c \/ In d (List.concat sb)).
Proof.
  induction sb as [|stecker sb IH]; intros c Hp Hn Hr; simpl.
  - exists c. auto.
  - simpl in Hp. apply andb_prop in Hp. destruct Hp as [H2 Hp].
    destruct (len_2 _ H2) as (p & q & ->).
    simpl in Hn, Hr. inversion Hn as [|? ? Hp' Hn']; subst.
    inversion Hn' as [|? ? Hq' Hn'']; subst.
    assert (Hpq : p <> q) by (intros ->; apply Hp'; now left).
    destruct (contains c [p; q]) eqn:Hin.
    + apply contains_In in Hin.
      destruct (remove_char_pair p q c Hpq Hin) as [[-> ->]|[-> ->]]; simpl.
      * exists q. rewrite !Z.eqb_refl.
        destruct (Z.eqb_spec q p); [congruence|].
        destruct (Z.eqb_spec p q); [congruence|]. simpl. intuition.
      * exists p. rewrite !Z.eqb_refl.
        destruct (Z.eqb_spec q p); [congruence|].
        destruct (Z.eqb_spec p q); [congruence|]. simpl. intuition.
    + destruct (IH c Hp Hn'') as (d & Ho & Hi & Hb & Hd); [auto|].
      exists d. rewrite Ho, Hi.
      assert (Hdn : contains d [p; q] = false).
      { apply contains_not_In. apply contains_not_In in Hin.
        destruct Hd as [->|Hd]; [assumption|].
        intros [<-|[<-|[]]].
        - apply Hp'. now right.
        - contradiction. }
      rewrite Hdn. repeat split; auto.
      destruct Hd; [now left|right; simpl; auto].
Qed.

End Path.

(** ** Relation Walzen and their turns *)

Lemma enumerate_from_app {A} (l1 l2 : list A) : forall i,
  enumerate_from i (l1 ++ l2)
  = enumerate_from i l1 ++ enumerate_from (i + len l1) l2.
Proof.
  unfold len. induction l1 as [|x l1 IH]; intros i; simpl.
  - f_equal. lia.
  - rewrite IH. do 3 f_equal. lia.
Qed.

Lemma In_enumerate_from {A} (l : list A) : forall k i x,
  nth_error l k = Some x -> In (i + Z.of_nat k, x) (enumerate_from i l).
Proof.
  induction l as [|y l IH]; intros [|k] i x H; simpl in *; try discriminate.
  - injection H as ->. left. f_equal. lia.
  - right. replace (i + Z.of_nat (S k)) with (i + 1 + Z.of_nat k) by lia.
    now apply IH.
Qed.

Lemma shown_length N i r : List.length (shown N i r) = List.length r.
Proof.
  unfold shown. rewrite length_map. revert i.
  induction r; intros i; simpl; auto.
Qed.

Lemma shown_in_range N i r : 0 < N -> Forall (in_range N) (shown N i r).
Proof.
  intros HN. unfold shown. apply Forall_forall. intros c Hc.
  apply in_map_iff in Hc. destruct Hc as (p & <- & _).
  pose proof (Z.mod_pos_bound (snd p + fst p) N HN). unfold in_range. lia.
Qed.

Lemma rmap_Ok {A B} (f : A -> result B) (g : A -> B) l :
  (forall x, f x = Ok (g x)) -> rmap f l = Ok (map g l).
Proof.
  intros H. induction l as [|x l IH]; simpl; [reflexivity|].
  now rewrite H, IH.
Qed.

Lemma current_walze_shown alphabet r :
  1 <= len alphabet <= 26 ->
  current_walze alphabet r = Ok (shown (len alphabet) 0 r).
Proof.
  intros HN. unfold current_walze, shown, enumerate.
  apply rmap_Ok. intros p.
  unfold pymod. destruct (Z.eqb_spec (len alphabet) 0); [lia|]. simpl.
  unfold chr.
  pose proof (Z.mod_pos_bound (snd p + fst p) (len alphabet) ltac:(lia)).
  destruct (Z.leb_spec 0 ((snd p + fst p) mod len alphabet + 65)); [|lia].
  destruct (Z.ltb_spec ((snd p + fst p) mod len alphabet + 65) 1114112);
    [|lia].
  reflexivity.
Qed.

Lemma current_walzen_shown alphabet ws :
  1 <= len alphabet <= 26 ->
  rmap (current_walze alphabet) ws = Ok (map (shown (len alphabet) 0) ws).
Proof.
  intros HN. apply rmap_Ok. intros r. now apply current_walze_shown.
Qed.

Lemma good_rotor N r : 0 < N -> good N r -> rotor N (shown N 0 r).
Proof.
  intros HN [Hl Hn]. unfold rotor, len in *.
  rewrite shown_length. auto using shown_in_range.
Qed.

Lemma dec_injective N c d :
  in_range N c -> in_range N d -> dec N c = dec N d -> c = d.
Proof.
  unfold in_range, dec. intros Hc Hd H.
  assert (HN : 0 < N) by lia.
  pose proof (Z.div_mod (c - 65 - 1) N ltac:(lia)).
  pose proof (Z.div_mod (d - 65 - 1) N ltac:(lia)).
  assert (E : (c - 65 - 1) mod N = (d - 65 - 1) mod N) by lia.
  set (qc := (c - 65 - 1) / N) in *. set (qd := (d - 65 - 1) / N) in *.
  assert (Hq : N * (qc - qd) = c - d) by lia.
  destruct (Z.eq_dec qc qd) as [Heq|Hneq].
  - rewrite Heq, Z.sub_diag, Z.mul_0_r in Hq. lia.
  - exfalso. assert (qc - qd >= 1 \/ qc - qd <= -1) as [Hp|Hp] by lia; nia.
Qed.

Lemma shown_shift N r : forall i,
  0 < N -> shown N i r = map (dec N) (shown N (i + 1) r).
Proof.
  unfold shown. induction r as [|x r IH]; intros i HN; simpl.
  - reflexivity.
  - rewrite (IH (i + 1) HN). f_equal. unfold dec.
    replace ((x + (i + 1)) mod N + 65 - 65 - 1)
      with ((x + (i + 1)) mod N - 1) by lia.
    rewrite Zminus_mod_idemp_l. do 2 f_equal. lia.
Qed.

Lemma shown_rot N x r :
  0 < N -> len (x :: r) = N ->
  shown N 0 (rot (x :: r)) = map (dec N) (rot (shown N 0 (x :: r))).
Proof.
  intros HN Hl. unfold len in Hl. simpl List.length in Hl.
  simpl rot. unfold shown at 1. rewrite enumerate_from_app, map_app.
  rewrite map_app. f_equal.
  - fold (shown N 0 r). fold (shown N (0 + 1) r). now apply shown_shift.
  - simpl. f_equal. unfold dec, len.
    replace ((x + 0) mod N + 65 - 65 - 1) with ((x + 0) mod N - 1) by lia.
    rewrite Zminus_mod_idemp_l.
    replace (x + (0 + Z.of_nat (List.length r))) with (x + 0 - 1 + 1 * N)
      by lia.
    now rewrite Z.mod_add by lia.
Qed.

Lemma good_rot N r : 0 < N -> good N r -> good N (rot r).
Proof.
  intros HN [Hl Hn]. destruct r as [|x r]; [split; assumption|].
  split.
  - unfold len in *. simpl in *. rewrite length_app. simpl. lia.
  - rewrite shown_rot by assumption.
    apply NoDup_map_NoDup_ForallPairs.
    + intros c d Hc Hd. apply dec_injective.
      * pose proof (shown_in_range N 0 (x :: r) HN) as Hf.
        rewrite Forall_forall in Hf. apply Hf.
        simpl in Hc. apply in_app_or in Hc. simpl.
        destruct Hc as [Hc|[Hc|[]]]; auto.
      * pose proof (shown_in_range N 0 (x :: r) HN) as Hf.
        rewrite Forall_forall in Hf. apply Hf.
        simpl in Hd. apply in_app_or in Hd. simpl.
        destruct Hd as [Hd|[Hd|[]]]; auto.
    + simpl. eapply Permutation_NoDup; [|exact Hn].
      simpl. apply Permutation_cons_append.
Qed.

Lemma skipn_cons {A} (r : list A) : forall k x rest,
  skipn k r = x :: rest ->
  skipn (S k) r = rest /\ firstn (S k) r = firstn k r ++ [x].
Proof.
  induction r as [|y r IH]; intros [|k] x rest H; simpl in *;
    try discriminate.
  - injection H as -> ->. auto.
  - destruct (IH k x rest H) as [H1 H2]. split; [assumption|].
    now rewrite <- H2.
Qed.

(** [walze[index:] + walze[:index]] is [index] turns. *)
Lemma good_slices N r : forall k,
  0 < N -> (k <= List.length r)%nat -> good N r ->
  good N (skipn k r ++ firstn k r).
Proof.
  induction k as [|k IH]; intros HN Hk Hg.
  - simpl. now rewrite app_nil_r.
  - specialize (IH HN ltac:(lia) Hg).
    destruct (skipn k r) as [|x rest] eqn:Hs.
    + pose proof (length_skipn k r) as Hl. rewrite Hs in Hl. simpl in Hl.
      lia.
    + destruct (skipn_cons r k x rest Hs) as [-> ->].
      apply good_rot in IH; [|assumption]. simpl in IH.
      now rewrite <- app_assoc in IH.
Qed.

Lemma relation_walze_shown N w : forall i,
  Forall (in_range N) w ->
  shown N i (map (fun jc => snd jc - 65 - fst jc) (enumerate_from i w)) = w.
Proof.
  unfold shown. induction w as [|c w IH]; intros i Hf; simpl.
  - reflexivity.
  - inversion Hf as [|? ? Hc Hf']; subst. rewrite (IH _ Hf'). f_equal.
    unfold in_range in Hc.
    replace (c - 65 - i + i) with (c - 65) by lia.
    rewrite Z.mod_small by lia. lia.
Qed.

Lemma relation_walze_length w :
  List.length (relation_walze w) = List.length w.
Proof.
  unfold relation_walze, enumerate. rewrite length_map.
  generalize 0. induction w; intros; simpl; auto.
Qed.

Lemma good_relation_walze N w : rotor N w -> good N (relation_walze w).
Proof.
  intros (Hl & Hn & Hf). split.
  - unfold len in *. now rewrite relation_walze_length.
  - unfold relation_walze, enumerate. now rewrite relation_walze_shown.
Qed.

Lemma slices_at {A} (r : list A) i :
  0 <= i <= len r ->
  slice_from r i ++ slice_to r i
  = skipn (Z.to_nat i) r ++ firstn (Z.to_nat i) r.
Proof.
  intros Hi. unfold slice_from, slice_to, clamp.
  destruct (Z.ltb_spec i 0); [lia|].
  now rewrite Z.min_l by lia.
Qed.

Lemma good_setup N w b :
  0 < N -> rotor N w -> in_range N b ->
  good N (slice_from (relation_walze w) (b - 65)
          ++ slice_to (relation_walze w) (b - 65)).
Proof.
  intros HN Hw Hb. pose proof (good_relation_walze N w Hw) as Hg.
  destruct Hg as [Hl Hg]. unfold in_range in Hb.
  rewrite slices_at by lia.
  apply good_slices; [assumption| |split; assumption].
  unfold len in Hl. lia.
Qed.

(** ** Well-formed machines and ready frames *)

Lemma len_3 {A} (l : list A) : (len l =? 3) = true -> List.length l = 3%nat.
Proof. unfold len. intros H. apply Z.eqb_eq in H. lia. Qed.

Lemma well_formed_Formed e :
  well_formed e = true -> Formed e (List.length (__alphabet e)).
Proof.
  unfold well_formed. intros H.
  repeat match type of H with
         | (_ && _) = true =>
             let H' := fresh "H" in
             apply andb_prop in H; destruct H as [H H']
         end.
  apply Z.leb_le in H. apply Z.leb_le in H10. apply str_eqb_eq in H9.
  unfold len in H, H10.
  assert (Hr : forall w, is_wiring (__alphabet e) w = true ->
                         rotor (Z.of_nat (List.length (__alphabet e))) w).
  { intros w Hw. apply rotor_of_wiring. now rewrite <- H9. }
  apply check_steckerbrett_spec in H3. destruct H3 as [Hnd Hin].
  constructor; auto using len_3.
  - lia.
  - apply Forall_forall. intros w Hw. apply Hr.
    rewrite forallb_forall in H7. auto.
  - intros d Hd. apply az_In. rewrite <- H9. auto.
  - apply Forall_forall. intros c Hc. apply az_In. rewrite <- H9.
    rewrite forallb_forall in H1. apply contains_In. auto.
Qed.

Lemma ready_Formed fr :
  ready fr -> Formed (self fr) (List.length (__alphabet (self fr))).
Proof. intros [H _]. now apply well_formed_Formed. Qed.

Lemma update_length {A} (l : list A) : forall k v,
  List.length (update l k v) = List.length l.
Proof. induction l; intros [|k] v; simpl; auto. Qed.

Lemma Forall_update {A} (P : A -> Prop) (l : list A) : forall k v,
  Forall P l -> P v -> Forall P (update l k v).
Proof.
  induction l as [|x l IH]; intros [|k] v Hl Hv; simpl; trivial;
    inversion Hl; subst; constructor; auto.
Qed.

Lemma getitem_in {A} (l : list A) k :
  0 <= k < len l ->
  exists x, nth_error l (Z.to_nat k) = Some x /\ getitem l k = Ok x.
Proof.
  unfold len. intros Hk. rewrite getitem_nth by lia.
  destruct (nth_error l (Z.to_nat k)) as [x|] eqn:Hn; [eauto|].
  apply nth_error_None in Hn. lia.
Qed.

Lemma setitem_in {A} (l : list A) k v :
  0 <= k < len l -> setitem l k v = Ok (update l (Z.to_nat k) v).
Proof.
  intros Hk. unfold setitem.
  destruct (Z.ltb_spec k 0); [lia|].
  destruct (Z.ltb_spec k 0); [lia|].
  destruct (Z.leb_spec (len l) k); [lia|]. reflexivity.
Qed.

Lemma slice_from_1 {A} (h : A) t : slice_from (h :: t) 1 = t.
Proof.
  unfold slice_from, clamp, len. simpl List.length.
  destruct (Z.ltb_spec 1 0); [lia|].
  rewrite Z.min_l by lia. reflexivity.
Qed.

Lemma steady_ret {A} (x : A) : steady (ret x).
Proof. intros fr H. exists x, fr. auto. Qed.

Lemma steady_bind {A B} (m : M Frame A) (k : A -> M Frame B) :
  steady m -> (forall x, steady (k x)) -> steady (bind m k).
Proof.
  intros Hm Hk fr H.
  destruct (Hm fr H) as (x & fr1 & E1 & R1 & S1 & O1).
  destruct (Hk x fr1 R1) as (y & fr2 & E2 & R2 & S2 & O2).
  exists y, fr2. split.
  - unfold bind. rewrite E1. exact E2.
  - split; [exact R2|split; congruence].
Qed.

Lemma steady_rotate k : 0 <= k < 3 -> steady (rotate k).
Proof.
  intros Hk fr H. pose proof (ready_Formed fr H) as F.
  destruct H as (Hw & Hl & Hg & Hc).
  assert (Hk' : 0 <= k < len (walzen fr)) by (unfold len; lia).
  destruct (getitem_in (walzen fr) k Hk') as (w & Hn & Hgw).
  assert (Hgood : good (len (__alphabet (self fr))) w).
  { rewrite Forall_forall in Hg. apply Hg.
    eapply nth_error_In; eassumption. }
  assert (HN : 0 < len (__alphabet (self fr))).
  { unfold len. pose proof (formed_size _ _ F). lia. }
  destruct w as [|h t].
  { destruct Hgood as [Hlen _]. unfold len in *. simpl in Hlen. lia. }
  exists tt, (set_walzen (update (walzen fr) (Z.to_nat k) (t ++ [h])) fr).
  split.
  - unfold rotate, bind, get, lift, put. rewrite Hgw.
    change (getitem (h :: t) 0) with (Ok h).
    rewrite slice_from_1, setitem_in by assumption. reflexivity.
  - repeat split; simpl; trivial.
    + now rewrite update_length.
    + apply Forall_update; [assumption|].
      now apply (good_rot _ (h :: t)).
Qed.

Lemma steady_tick k : 0 <= k < 3 -> steady (tick k).
Proof.
  intros Hk fr H. destruct H as (Hw & Hl & Hg & Hc).
  assert (Hk' : 0 <= k < len (count fr)) by (unfold len; lia).
  destruct (getitem_in (count fr) k Hk') as (c & _ & Hgc).
  exists (c mod 26 + 1),
    (set_count (update (count fr) (Z.to_nat k) (c mod 26 + 1)) fr).
  split.
  - unfold tick, bind, get, lift, put, ret. rewrite Hgc.
    rewrite setitem_in by assumption. reflexivity.
  - repeat split; simpl; trivial. now rewrite update_length.
Qed.

Lemma steady_ringkerbe k : 0 <= k < 3 -> steady (ringkerbe k).
Proof.
  intros Hk fr H. pose proof (ready_Formed fr H) as F.
  assert (Hk' : 0 <= k < len (__ringkerben (self fr))).
  { unfold len. rewrite (formed_ringkerben _ _ F). lia. }
  destruct (getitem_in _ k Hk') as (c & _ & Hgc).
  exists c, fr. split; [|auto].
  unfold ringkerbe, bind, get, lift. now rewrite Hgc.
Qed.

Lemma steady_step : steady step.
Proof.
  unfold step.
  repeat first
    [ apply steady_rotate; lia | apply steady_tick; lia
    | apply steady_ringkerbe; lia
    | apply steady_ret | apply steady_bind
    | match goal with
      | |- forall _, steady _ => intro
      | |- steady (if ?b then _ else _) => destruct b
      end ].
Qed.

Lemma blind_ret {A} (x : A) : blind (ret x).
Proof. intros out fr. reflexivity. Qed.

Lemma blind_bind {A B} (m : M Frame A) (k : A -> M Frame B) :
  blind m -> (forall x, blind (k x)) -> blind (bind m k).
Proof.
  intros Hm Hk out fr. unfold bind. rewrite Hm.
  destruct (m fr) as [[x|x] fr1]; simpl; [|reflexivity].
  apply Hk.
Qed.

Lemma blind_rotate k : blind (rotate k).
Proof. intros out fr. unfold rotate. run_cases. Qed.

Lemma blind_tick k : blind (tick k).
Proof. intros out fr. unfold tick. run_cases. Qed.

Lemma blind_ringkerbe k : blind (ringkerbe k).
Proof. intros out fr. unfold ringkerbe. run_cases. Qed.

Lemma blind_step : blind step.
Proof.
  unfold step.
  repeat first
    [ apply blind_rotate | apply blind_tick | apply blind_ringkerbe
    | apply blind_ret | apply blind_bind
    | match goal with
      | |- forall _, blind _ => intro
      | |- blind (if ?b then _ else _) => destruct b
      end ].
Qed.

(** ** The involution *)

Lemma umkehrwalze_reflects N u x :
  rotor N u -> is_involution u = true -> 0 <= x < N ->
  exists c, getitem u x = Ok c /\ in_range N c /\
            getitem u (c - 65) = Ok (65 + x).
Proof.
  intros Hr Hi Hx.
  destruct (rotor_there N u x Hr Hx) as (c & Hg & Hc & _).
  exists c. split; [assumption|split; [assumption|]].
  rewrite getitem_nth in Hg by lia.
  destruct (nth_error u (Z.to_nat x)) as [c'|] eqn:Hn; [|discriminate].
  injection Hg as ->.
  unfold is_involution in Hi. rewrite forallb_forall in Hi.
  specialize (Hi _ (In_enumerate_from u _ 0 c Hn)). simpl in Hi.
  destruct (getitem u (c - 65)) as [d|]; [|discriminate].
  apply Z.eqb_eq in Hi. f_equal. lia.
Qed.

Lemma chr_letter N c : in_range N c -> N <= 26 -> chr (c - 65 + 65) = Ok c.
Proof.
  unfold in_range, chr. intros Hc HN.
  replace (c - 65 + 65) with c by lia.
  destruct (Z.leb_spec 0 c); [|lia].
  destruct (Z.ltb_spec c 1114112); [|lia]. reflexivity.
Qed.

(** On a well-formed machine with good Walzen a letter of the alphabet
    comes out as a letter of the alphabet, and that letter comes out as the
    first one. *)
Lemma signal_involution e ws c :
  well_formed e = true ->
  Forall (good (len (__alphabet e))) ws ->
  in_range (len (__alphabet e)) c ->
  exists d, in_range (len (__alphabet e)) d /\
            signal e ws c = Ok [d] /\ signal e ws d = Ok [c].
Proof.
  intros Hwf Hws Hc. pose proof (well_formed_Formed e Hwf) as F.
  set (n := List.length (__alphabet e)) in *.
  assert (HN : 1 <= len (__alphabet e) <= 26).
  { unfold len. fold n. pose proof (formed_size _ _ F). lia. }
  change (len (__alphabet e)) with (Z.of_nat n) in *.
  assert (Hrs : Forall (rotor (Z.of_nat n)) (map (shown (Z.of_nat n) 0) ws)).
  { apply Forall_forall. intros w Hw. apply in_map_iff in Hw.
    destruct Hw as (r & <- & Hr). apply good_rotor; [lia|].
    rewrite Forall_forall in Hws. auto. }
  pose proof (steckerbrett_swaps n (__steckerbrett e)) as Hsb.
  specialize (fun c => Hsb c (formed_pairs _ _ F) (formed_disjoint _ _ F)
                         (formed_stecker _ _ F)).
  assert (Hsr : forall c d, in_range (Z.of_nat n) c ->
                  steckerbrett_out (__steckerbrett e) c = [d] ->
                  in_range (Z.of_nat n) d).
  { intros c0 d0 Hc0 H0. destruct (Hsb c0) as (d' & Ho & _ & _ & Hd').
    rewrite Ho in H0. injection H0 as <-.
    destruct Hd' as [->|Hd']; [assumption|].
    now apply (formed_stecker _ _ F). }
  destruct (Hsb c) as (d1 & Ho1 & Hi1 & Hb1 & _).
  pose proof (Hsr c d1 Hc Ho1) as Hd1.
  destruct (forward_backward n _ (d1 - 65) Hrs) as (y & Hy & Hf & Hb);
    [unfold in_range in Hd1; lia|].
  destruct (umkehrwalze_reflects _ _ y (formed_umkehrwalze _ _ F)
              (formed_involution _ _ F) Hy) as (c2 & Hu & Hc2 & Hu').
  destruct (backward_forward n _ c2 Hrs Hc2) as (d3 & Hd3 & Hb3 & Hf3).
  destruct (Hsb d3) as (d4 & Ho4 & Hi4 & Hb4 & _).
  pose proof (Hsr d3 d4 Hd3 Ho4) as Hd4.
  exists d4. split; [assumption|].
  unfold signal.
  rewrite current_walzen_shown by (unfold len; fold n; lia).
  change (len (__alphabet e)) with (Z.of_nat n).
  rewrite (formed_alphabet _ _ F). simpl.
  split.
  - rewrite Hi1. simpl. rewrite Hf. simpl. rewrite Hu. simpl.
    rewrite Hb3. simpl. rewrite (chr_letter (Z.of_nat n)) by (trivial; lia).
    simpl. now rewrite Ho4.
  - destruct (Hsb d4) as (d5 & Ho5 & Hi5 & _).
    rewrite Hb4 in Ho5. injection Ho5 as <-.
    rewrite Hi5. simpl. rewrite Hf3. simpl. rewrite Hu'. simpl.
    replace (65 + y) with (y + 65) by lia. rewrite Hb. simpl.
    replace (d1 - 65 + 65 - 65 + 65) with (d1 - 65 + 65) by lia.
    rewrite (chr_letter (Z.of_nat n)) by (trivial; lia).
    simpl. now rewrite Hb1.
Qed.

Lemma set_encoded_message_twice out out' fr :
  set_encoded_message out (set_encoded_message out' fr)
  = set_encoded_message out fr.
Proof. reflexivity. Qed.

Lemma set_encoded_message_same fr :
  set_encoded_message (encoded_message fr) fr = fr.
Proof. now destruct fr. Qed.

Lemma ready_set_encoded_message out fr :
  ready fr -> ready (set_encoded_message out fr).
Proof. intros H. exact H. Qed.

Lemma in_range_is_letter N c :
  N <= 26 -> in_range N c -> is_letter c = true /\ upper_char c = c.
Proof.
  unfold in_range, is_letter, upper_char. intros HN Hc. split.
  - apply andb_true_intro. split; [apply Z.leb_le|apply Z.leb_le]; lia.
  - destruct (Z.leb_spec 97 c); [lia|]. reflexivity.
Qed.

(** One letter in a ready frame, and the letter it gives in a frame with
    the same Walzen. *)
Lemma encode_char_ready fr c :
  ready fr ->
  in_range (len (__alphabet (self fr))) c ->
  exists d fr',
    in_range (len (__alphabet (self fr))) d /\
    encode_char c fr = (Ok tt, fr') /\
    ready fr' /\ self fr' = self fr /\
    encoded_message fr' = encoded_message fr ++ [d] /\
    forall out,
      encode_char d (set_encoded_message out fr)
      = (Ok tt, set_encoded_message (out ++ [c]) fr').
Proof.
  intros Hr Hc. pose proof (ready_Formed fr Hr) as F.
  assert (HN : len (__alphabet (self fr)) <= 26).
  { unfold len. pose proof (formed_size _ _ F). lia. }
  destruct Hr as (Hwf & Hl & Hg & Hcnt).
  destruct (signal_involution (self fr) (walzen fr) c Hwf Hg Hc)
    as (d & Hd & Hs & Hs').
  assert (Hr : ready fr) by (repeat split; assumption).
  destruct (steady_step fr Hr) as ([] & fr1 & E1 & R1 & S1 & O1).
  exists d, (set_encoded_message (encoded_message fr ++ [d]) fr1).
  split; [assumption|].
  destruct (in_range_is_letter _ c HN Hc) as [Lc _].
  destruct (in_range_is_letter _ d HN Hd) as [Ld _].
  split; [|split; [|split; [|split]]].
  - rewrite encode_char_letter by assumption. rewrite Hs.
    rewrite blind_step, E1. reflexivity.
  - exact R1.
  - exact S1.
  - reflexivity.
  - intros out. rewrite encode_char_letter by assumption. simpl.
    rewrite Hs'. rewrite set_encoded_message_twice.
    rewrite blind_step, E1. reflexivity.
Qed.

Lemma encode_loop_ready e msg : forall fr,
  ready fr -> self fr = e ->
  Forall (in_range (len (__alphabet e))) msg ->
  exists code fr',
    Forall (in_range (len (__alphabet e))) code /\
    encode_loop msg fr = (Ok tt, fr') /\
    encoded_message fr' = encoded_message fr ++ code /\
    forall out, exists fr'',
      encode_loop code (set_encoded_message out fr) = (Ok tt, fr'') /\
      encoded_message fr'' = out ++ msg.
Proof.
  unfold encode_loop.
  induction msg as [|c msg IH]; intros fr Hr He Hm.
  - exists [], fr. simpl. rewrite app_nil_r. repeat split; trivial.
    intros out. exists (set_encoded_message out fr). simpl.
    now rewrite app_nil_r.
  - inversion Hm as [|? ? Hc Hm']; subst.
    destruct (encode_char_ready fr c Hr Hc)
      as (d & fr1 & Hd & E1 & R1 & S1 & O1 & B1).
    destruct (IH fr1 R1 S1 Hm') as (code & fr' & Hcode & E & O & B).
    exists (d :: code), fr'. split; [now constructor|].
    split; [|split].
    + simpl. unfold bind. now rewrite E1.
    + rewrite O, O1, <- app_assoc. reflexivity.
    + intros out. destruct (B (out ++ [c])) as (fr'' & E'' & O'').
      exists fr''. simpl. unfold bind. rewrite B1.
      unfold encode_loop in E''. rewrite E''.
      split; [reflexivity|]. now rewrite O'', <- app_assoc.
Qed.

Lemma setup_walze_run fr i w b :
  getitem (__base (self fr)) i = Ok b ->
  0 <= i < len (count fr) ->
  setup_walze (i, w) fr
  = (Ok tt,
     set_walzen (walzen fr ++ [slice_from (relation_walze w) (b - 65)
                               ++ slice_to (relation_walze w) (b - 65)])
       (set_count (update (count fr) (Z.to_nat i) (b - 65)) fr)).
Proof.
  intros Hb Hi. unfold setup_walze, bind, get, lift, put. simpl.
  rewrite Hb, setitem_in by assumption. reflexivity.
Qed.

(** The setup of a well-formed machine gives a ready frame. *)
Lemma encode_setup_ready e :
  well_formed e = true ->
  exists fr0,
    encode_setup (enter e) = (Ok tt, fr0) /\
    ready fr0 /\ self fr0 = e /\ encoded_message fr0 = [].
Proof.
  intros Hwf. pose proof (well_formed_Formed e Hwf) as F.
  set (n := List.length (__alphabet e)) in *.
  assert (HN : 0 < Z.of_nat n) by (pose proof (formed_size _ _ F); lia).
  pose proof (formed_count _ _ F) as Hlw.
  pose proof (formed_walzen _ _ F) as Hrw.
  pose proof (formed_base _ _ F) as Hlb.
  pose proof (formed_base_letters _ _ F) as Hrb.
  destruct (__walzen e) as [|w1 [|w2 [|w3 [|]]]] eqn:Hw; try discriminate.
  destruct (__base e) as [|b1 [|b2 [|b3 [|]]]] eqn:Hb; try discriminate.
  inversion Hrw as [|? ? Hw1 Hrw1]; subst.
  inversion Hrw1 as [|? ? Hw2 Hrw2]; subst.
  inversion Hrw2 as [|? ? Hw3 _]; subst.
  inversion Hrb as [|? ? Hb1 Hrb1]; subst.
  inversion Hrb1 as [|? ? Hb2 Hrb2]; subst.
  inversion Hrb2 as [|? ? Hb3 _]; subst.
  unfold encode_setup, bind at 1, get. simpl self. rewrite Hw.
  change (enumerate [w1; w2; w3]) with [(0, w1); (1, w2); (2, w3)].
  simpl for_each. unfold bind, ret.
  rewrite (setup_walze_run _ 0 w1 b1);
    [|simpl; rewrite Hb; reflexivity|simpl; unfold len; simpl; lia].
  rewrite (setup_walze_run _ 1 w2 b2);
    [|simpl; rewrite Hb; reflexivity
     |simpl; unfold len; rewrite ?update_length; simpl; lia].
  rewrite (setup_walze_run _ 2 w3 b3);
    [|simpl; rewrite Hb; reflexivity
     |simpl; unfold len; rewrite ?update_length; simpl; lia].
  eexists. split; [reflexivity|].
  split; [|split; reflexivity].
  split; [exact Hwf|]. simpl.
  split; [reflexivity|]. split.
  - fold n. unfold len. fold n.
    repeat constructor; apply good_setup; assumption.
  - rewrite ?update_length. reflexivity.
Qed.

Lemma upper_letters N msg :
  N <= 26 -> Forall (in_range N) msg -> upper msg = msg.
Proof.
  intros HN Hm. unfold upper. induction Hm as [|c msg Hc _ IH]; simpl.
  - reflexivity.
  - rewrite IH. f_equal. now apply (in_range_is_letter N).
Qed.

(** C1, as the code has it: on a well-formed machine (the alphabet is the
    first capital letters, three Walzen that are wirings, an Umkehrwalze
    that is a wiring and an involution, Stecker that are disjoint pairs of
    letters, three base letters), for a message of letters of the alphabet,
    [encode] returns, and [encode] of what it returned returns the message.
    Both calls start from the base, since [encode] leaves the object as it
    is. *)
Theorem encode_involution e msg :
  well_formed e = true ->
  forallb (fun char => contains char (__alphabet e)) msg = true ->
  exists code,
    fst (encode msg e) = Ok code /\
    fst (encode code (snd (encode msg e))) = Ok msg.
Proof.
  intros Hwf Hmsg. rewrite encode_self.
  pose proof (well_formed_Formed e Hwf) as F.
  assert (HN : len (__alphabet e) <= 26).
  { unfold len. pose proof (formed_size _ _ F). lia. }
  assert (Hm : Forall (in_range (len (__alphabet e))) msg).
  { apply Forall_forall. intros c Hc. rewrite forallb_forall in Hmsg.
    specialize (Hmsg c Hc). apply contains_In in Hmsg.
    rewrite (formed_alphabet _ _ F) in Hmsg. now apply az_In in Hmsg. }
  destruct (encode_setup_ready e Hwf) as (fr0 & E0 & R0 & S0 & O0).
  destruct (encode_loop_ready e msg fr0 R0 S0 Hm)
    as (code & fr' & Hcode & E & O & B).
  exists code. unfold encode, bind. rewrite E0.
  rewrite (upper_letters _ msg HN Hm), (upper_letters _ code HN Hcode).
  rewrite E. simpl. rewrite O, O0. split; [reflexivity|].
  destruct (B []) as (fr'' & E'' & O'').
  rewrite <- O0, set_encoded_message_same in E''.
  rewrite E''. simpl. now rewrite O''.
Qed.

Lemma encode_involution_witness :
  exists code,
    fst (encode (py "HELLOWORLD") (built enigma26_stecker)) = Ok code /\
    fst (encode code
           (snd (encode (py "HELLOWORLD") (built enigma26_stecker))))
    = Ok (py "HELLOWORLD").
Proof.
  apply (encode_involution (built enigma26_stecker) (py "HELLOWORLD"));
    vm_compute; reflexivity.
Defined.

(** The message of the doctest has a space: what [encode] gives for the
    output of [encode] is the message without it.  And on a machine with
    four Walzen that are wirings and the same Umkehrwalze, [encode] raises
    on a single letter. *)
Lemma encode_twice_differs :
  (exists e code,
     enigma26 = Ok e /\ well_formed e = true /\
     no_fixed_point (__alphabet e) (__umkehrwalze e) = true /\
     fst (encode (py "QMJIDO MZWZJFJR") e) = Ok code /\
     fst (encode code (snd (encode (py "QMJIDO MZWZJFJR") e)))
     = Ok (py "QMJIDOMZWZJFJR") /\
     py "QMJIDOMZWZJFJR" <> py "QMJIDO MZWZJFJR") /\
  (exists e,
     enigma4 = Ok e /\
     forallb (is_wiring (__alphabet e)) (__walzen e) = true /\
     is_wiring (__alphabet e) (__umkehrwalze e) = true /\
     is_involution (__umkehrwalze e) = true /\
     no_fixed_point (__alphabet e) (__umkehrwalze e) = true /\
     __steckerbrett e = [] /\
     fst (encode (py "A") e) = Raise IndexError).
Proof.
  split.
  - eexists. exists (py "ENIGMAREVEALED").
    split; [reflexivity|].
    repeat split; try (vm_compute; reflexivity).
    vm_compute. discriminate.
  - eexists. split; [reflexivity|].
    repeat split; vm_compute; reflexivity.
Qed.

(** With four Walzen the setup runs out of counters, with one Walze the
    rotation runs out of Walzen, and over an alphabet that does not start
    at [A] a letter falls off the Walzen. *)
Example encode_other_machines :
  fst (run (init 4 ABC) (encode (py "A"))) = Raise IndexError /\
  fst (run (init 1 ABC) (encode (py "ABCDEFGHIJKLMNOPQRSTUVWXYZ")))
  = Raise IndexError /\
  fst (run (init 3 (py "XYZ")) (encode (py "X"))) = Raise IndexError.
Proof. repeat split; vm_compute; reflexivity. Qed.

(** * Further properties *)

(** ** Upper case *)

Lemma upper_char_twice c : upper_char (upper_char c) = upper_char c.
Proof.
  unfold upper_char.
  destruct ((97 <=? c) && (c <=? 122)) eqn:H.
  - apply andb_prop in H. destruct H as [H1 H2].
    apply Z.leb_le in H1. apply Z.leb_le in H2.
    destruct (Z.leb_spec 97 (c - 32)); [lia|]. reflexivity.
  - now rewrite H.
Qed.

Lemma same_letter_upper a b :
  same_letter a b = true -> upper_char a = upper_char b.
Proof.
  unfold same_letter, upper_char. intros H.
  repeat match goal with
         | |- context [?x <=? ?y] => destruct (Z.leb_spec x y)
         | H : context [?x <=? ?y] |- _ => destruct (Z.leb_spec x y)
         | H : context [?x =? ?y] |- _ => destruct (Z.eqb_spec x y)
         end; simpl in *; try discriminate; lia.
Qed.

Lemma same_letters_upper m1 : forall m2,
  same_letters m1 m2 = true -> upper m1 = upper m2.
Proof.
  induction m1 as [|a m1 IH]; intros [|b m2] H; simpl in H;
    try discriminate; [reflexivity|].
  apply andb_true_iff in H. destruct H as [Hab H].
  unfold upper in *. simpl.
  now rewrite (same_letter_upper _ _ Hab), (IH _ H).
Qed.

(** X1: on ASCII messages [encode] does not tell a small letter from its
    capital: a message and its upper case give the same result, and so do
    two messages that are the same up to the case of their letters. *)
Theorem encode_upper m1 m2 e :
  isascii m1 = true ->
  isascii m2 = true ->
  same_letters m1 m2 = true ->
  encode (upper m1) e = encode m1 e /\ encode m1 e = encode m2 e.
Proof.
  intros _ _ H12. split.
  - assert (H : upper (upper m1) = upper m1).
    { unfold upper. rewrite map_map. apply map_ext. intros c.
      apply upper_char_twice. }
    unfold encode. now rewrite H.
  - unfold encode. now rewrite (same_letters_upper _ _ H12).
Qed.

Lemma encode_upper_witness :
  encode (py "Enigma revealed") (built enigma26)
  = encode (py "eNIGMA Revealed") (built enigma26).
Proof.
  apply (encode_upper (py "Enigma revealed") (py "eNIGMA Revealed")
           (built enigma26)).
  - reflexivity.
  - reflexivity.
  - reflexivity.
Defined.

(** ** [set_steckerbrett] *)

Lemma check_steckerbrett_complete alphabet sb :
  NoDup sb -> (forall c, In c sb -> In c alphabet) ->
  check_steckerbrett alphabet sb = true.
Proof.
  induction sb as [|c sb IH]; intros Hn Hi; simpl; [reflexivity|].
  inversion Hn as [|? ? Hc Hn']; subst.
  assert (Ha : contains c alphabet = true)
    by (apply contains_In, Hi; now left).
  assert (Hs : contains c sb = false) by now apply contains_not_In.
  rewrite Ha, Hs. simpl. apply IH; [assumption|].
  intros d Hd. apply Hi. now right.
Qed.

(** X2: [set_steckerbrett] with a list given stores it exactly when the
    characters of its strings, taken together, are different from each
    other and belong to the alphabet; otherwise it raises [InputError] and
    leaves the object as it was.  The number of characters of a Stecker is
    not looked at. *)
Theorem set_steckerbrett_checks steckerbrett e :
  (NoDup (List.concat steckerbrett) /\
   (forall c, In c (List.concat steckerbrett) -> In c (__alphabet e)) <->
   set_steckerbrett steckerbrett e
   = (Ok tt, with_steckerbrett steckerbrett e)) /\
  (~ (NoDup (List.concat steckerbrett) /\
      forall c, In c (List.concat steckerbrett) -> In c (__alphabet e)) <->
   set_steckerbrett steckerbrett e = (Raise InputError, e)).
Proof.
  unfold set_steckerbrett, bind, get, put, raise.
  destruct (check_steckerbrett (__alphabet e) (List.concat steckerbrett))
    eqn:H.
  - apply check_steckerbrett_spec in H. split; split; trivial.
    + intros Hn. contradiction.
    + discriminate.
  - assert (Hn : ~ (NoDup (List.concat steckerbrett) /\
                    forall c, In c (List.concat steckerbrett) ->
                              In c (__alphabet e))).
    { intros [H1 H2].
      rewrite (check_steckerbrett_complete _ _ H1 H2) in H. discriminate. }
    split; split; trivial.
    + intros Hy. contradiction.
    + discriminate.
Qed.

(** A Stecker of three letters and a Stecker of one letter are taken. *)
Example set_steckerbrett_takes_triples :
  fst (run enigma26 (set_steckerbrett [py "ABC"; py "D"])) = Ok tt.
Proof. vm_compute. reflexivity. Qed.

(** ** [set_walze] and the place of a Walze *)

Lemma update_nth {A} (l : list A) : forall k v,
  (k < List.length l)%nat -> nth_error (update l k v) k = Some v.
Proof.
  induction l as [|x l IH]; intros [|k] v Hk; simpl in *; try lia; trivial.
  apply IH. lia.
Qed.

Lemma update_other {A} (l : list A) : forall k j v,
  j <> k -> nth_error (update l k v) j = nth_error l j.
Proof.
  induction l as [|x l IH]; intros [|k] [|j] v Hjk; simpl; trivial;
    try congruence.
  apply IH. congruence.
Qed.

(** X3: [set_walze] with a wiring of the alphabet follows the list
    assignment of Python.  A place from [-n] to [n - 1], for [n] Walzen,
    receives the wiring (a negative place counts from the end), the other
    Walzen and their number stay; any other place raises [IndexError] and
    leaves the object as it was. *)
Theorem set_walze_place num walze e :
  is_wiring (__alphabet e) walze = true ->
  let n := len (__walzen e) in
  (- n <= num < n ->
   exists ws,
     set_walze num walze e = (Ok tt, with_walzen ws e) /\
     List.length ws = List.length (__walzen e) /\
     nth_error ws (Z.to_nat (num mod n)) = Some walze /\
     forall j, j <> Z.to_nat (num mod n) ->
               nth_error ws j = nth_error (__walzen e) j) /\
  (num < - n \/ n <= num ->
   set_walze num walze e = (Raise IndexError, e)).
Proof.
  intros Hw n. rewrite set_walze_run, Hw. unfold setitem. fold n.
  split.
  - intros Hn.
    assert (E : (if num <? 0 then num + n else num) = num mod n).
    { destruct (Z.ltb_spec num 0).
      - apply Z.mod_unique with (q := -1); lia.
      - symmetry. apply Z.mod_small. lia. }
    rewrite E.
    pose proof (Z.mod_pos_bound num n ltac:(lia)) as Hm.
    destruct (Z.ltb_spec (num mod n) 0); [lia|].
    destruct (Z.leb_spec n (num mod n)); [lia|]. simpl.
    eexists. split; [reflexivity|].
    split; [apply update_length|].
    split.
    + apply update_nth. unfold n, len in *. lia.
    + intros j Hj. now apply update_other.
  - intros Hn.
    assert (Hb : ((if num <? 0 then num + n else num) <? 0)
                 || (n <=? (if num <? 0 then num + n else num)) = true).
    { apply orb_true_iff. destruct (Z.ltb_spec num 0).
      - left. apply Z.ltb_lt. unfold n, len in *. lia.
      - right. apply Z.leb_le. lia. }
    now rewrite Hb.
Qed.

Lemma set_walze_place_witness :
  exists ws,
    set_walze (-1) (py "HGFEDCBA") (built enigma8)
    = (Ok tt, with_walzen ws (built enigma8)) /\
    nth_error ws 2 = Some (py "HGFEDCBA").
Proof.
  destruct (set_walze_place (-1) (py "HGFEDCBA") (built enigma8)) as [H _];
    [vm_compute; reflexivity|].
  destruct H as (ws & H1 & _ & H2 & _).
  - change (len (__walzen (built enigma8))) with 3. lia.
  - exists ws. split; [exact H1|exact H2].
Defined.

(** ** [set_umkehrwalze] *)

Lemma check_umkehrwalze_ok alphabet walze :
  (forall c, In c walze -> In c alphabet) ->
  check_umkehrwalze alphabet walze = Ok tt.
Proof.
  induction walze as [|char rest IH]; intros H; simpl; [reflexivity|].
  destruct (In_index char alphabet) as (i & _ & Hi & Hg);
    [apply H; now left|].
  rewrite Hi. simpl. rewrite Hg. simpl. rewrite Z.eqb_refl. simpl.
  apply IH. intros c Hc. apply H. now right.
Qed.

Lemma set_umkehrwalze_run walze e :
  set_umkehrwalze walze e
  = if is_wiring (__alphabet e) walze
    then match check_umkehrwalze (__alphabet e) walze with
         | Ok _ => (Ok tt, with_umkehrwalze walze e)
         | Raise x => (Raise x, e)
         end
    else (Raise InputError, e).
Proof.
  unfold set_umkehrwalze, is_wiring, bind, get, raise, lift, put.
  destruct (len (__alphabet e) =? len walze); simpl; [|reflexivity].
  destruct (forallb _ (__alphabet e)); simpl; [|reflexivity].
  destruct (check_umkehrwalze (__alphabet e) walze) as [[]|x]; reflexivity.
Qed.

(** X4: over an alphabet of different characters, [set_umkehrwalze] with
    a wiring given stores it exactly when it is a permutation of the
    alphabet, and otherwise raises [InputError] and leaves the object as it
    was.  Nothing else about the wiring is looked at. *)
Theorem set_umkehrwalze_checks walze e :
  NoDup (__alphabet e) ->
  (Permutation (__alphabet e) walze <->
   set_umkehrwalze walze e = (Ok tt, with_umkehrwalze walze e)) /\
  (~ Permutation (__alphabet e) walze <->
   set_umkehrwalze walze e = (Raise InputError, e)).
Proof.
  intros Hn. rewrite set_umkehrwalze_run.
  pose proof (is_wiring_Permutation _ walze Hn) as Hw.
  destruct (is_wiring (__alphabet e) walze).
  - assert (Hp : Permutation (__alphabet e) walze) by now apply Hw.
    rewrite check_umkehrwalze_ok.
    + split; split; trivial; try contradiction; discriminate.
    + intros c Hc. apply Permutation_in with (l := walze); [|assumption].
      now apply Permutation_sym.
  - assert (Hp : ~ Permutation (__alphabet e) walze).
    { intros Hp. apply Hw in Hp. discriminate. }
    split; split; trivial; try contradiction; discriminate.
Qed.

Lemma set_umkehrwalze_checks_witness :
  NoDup (__alphabet (built enigma8)) /\
  set_umkehrwalze (py "HFGEDBCB") (built enigma8)
  = (Raise InputError, built enigma8).
Proof.
  assert (Hn : NoDup (__alphabet (built enigma8))).
  { vm_compute. repeat constructor; simpl; intuition discriminate. }
  split; [exact Hn|].
  apply (proj2 (set_umkehrwalze_checks (py "HFGEDBCB") (built enigma8) Hn)).
  intros Hp. apply Permutation_in with (x := 65) in Hp.
  - vm_compute in Hp. intuition discriminate.
  - vm_compute. intuition.
Defined.

(** ** What the constructor and the setters keep *)

Lemma is_wiring_refl a : is_wiring a a = true.
Proof.
  unfold is_wiring. rewrite Z.eqb_refl. simpl.
  apply forallb_contains. intros c Hc. exact Hc.
Qed.

Lemma getitem_In {A} (l : list A) i x : getitem l i = Ok x -> In x l.
Proof.
  unfold getitem. destruct (_ <? 0); [discriminate|].
  destruct (nth_error l _) eqn:H; [|discriminate].
  intros E. injection E as <-. eapply nth_error_In; eassumption.
Qed.






(** ** The random Ringkerben *)

Lemma draw_ringkerben_short draws : forall n i rk,
  0 <= i <= 3 -> Z.of_nat n + i > 3 -> List.length rk = 3%nat ->
  draw_ringkerben draws i n rk = Raise IndexError.
Proof.
  revert draws. intros draws n. revert draws.
  induction n as [|n IH]; intros draws i rk Hi Hn Hl; [lia|].
  simpl. destruct (Z.eq_dec i 3) as [->|Hi3].
  - unfold setitem, len. rewrite Hl. reflexivity.
  - rewrite setitem_in by (unfold len; lia). simpl.
    apply IH; [lia|lia|]. now rewrite update_length.
Qed.

(** X7: [set_ringkerben] without a list, on a machine with more than three
    Walzen, raises [IndexError] and leaves the object as it was: the list
    it fills has three places. *)
Theorem set_ringkerben_random_four draws e :
  3 < __num_walzen e ->
  set_ringkerben draws [] e = (Raise IndexError, e).
Proof.
  intros H. unfold set_ringkerben, bind, get, lift.
  rewrite draw_ringkerben_short; trivial; lia.
Qed.

Lemma set_ringkerben_random_four_witness :
  set_ringkerben [5; 6; 7; 8] [] (built enigma4)
  = (Raise IndexError, built enigma4).
Proof.
  apply (set_ringkerben_random_four [5; 6; 7; 8] (built enigma4)).
  vm_compute. reflexivity.
Defined.

(** X8: [set_ringkerben] without a list, on a machine with at most three
    Walzen, stores a list of three values whatever the number of Walzen:
    the values drawn, one for each Walze, then zeros. *)
Theorem set_ringkerben_random draws e :
  0 <= __num_walzen e <= 3 ->
  (Z.to_nat (__num_walzen e) <= List.length draws)%nat ->
  set_ringkerben draws [] e
  = (Ok tt,
     with_ringkerben
       (firstn (Z.to_nat (__num_walzen e)) draws
        ++ repeat 0 (3 - Z.to_nat (__num_walzen e))) e).
Proof.
  intros Hn Hd. unfold set_ringkerben, bind, get, lift, put.
  assert (Hk : (Z.to_nat (__num_walzen e) <= 3)%nat) by lia.
  destruct (Z.to_nat (__num_walzen e)) as [|[|[|[|k]]]]; try lia;
    destruct draws as [|d0 [|d1 [|d2 draws]]]; simpl in Hd; try lia;
    reflexivity.
Qed.

Lemma set_ringkerben_random_witness :
  set_ringkerben [5; 6; 7] [] (built (init 2 ABC))
  = (Ok tt, with_ringkerben [5; 6; 0] (built (init 2 ABC))).
Proof.
  apply (set_ringkerben_random [5; 6; 7] (built (init 2 ABC))).
  - vm_compute. split; discriminate.
  - vm_compute. repeat constructor.
Defined.

(** ** The setup of [encode] and the number of Walzen *)

Lemma getitem_IndexError {A} (l : list A) i x :
  getitem l i = Raise x -> x = IndexError.
Proof.
  unfold getitem. destruct (_ <? 0); [congruence|].
  destruct (nth_error l _); [discriminate|congruence].
Qed.

Lemma setup_walze_cases i w fr :
  0 <= i -> List.length (count fr) = 3%nat ->
  (fst (setup_walze (i, w) fr) = Raise IndexError) \/
  (i < 3 /\ fst (setup_walze (i, w) fr) = Ok tt /\
   List.length (count (snd (setup_walze (i, w) fr))) = 3%nat).
Proof.
  intros Hi Hc. unfold setup_walze, bind, get, lift, put. simpl.
  destruct (getitem (__base (self fr)) i) as [b|x] eqn:Hb.
  - destruct (Z.ltb_spec i 3).
    + right. rewrite setitem_in by (unfold len; lia). simpl.
      rewrite update_length. auto.
    + left. unfold setitem, len. rewrite Hc.
      destruct (Z.ltb_spec i 0); [lia|].
      destruct (Z.ltb_spec i 0); [lia|].
      destruct (Z.leb_spec (Z.of_nat 3) i); [|lia]. reflexivity.
  - left. apply getitem_IndexError in Hb. now subst.
Qed.

Lemma setup_four ws : forall i fr,
  0 <= i <= 3 -> i + len ws > 3 -> List.length (count fr) = 3%nat ->
  fst (for_each (enumerate_from i ws) setup_walze fr) = Raise IndexError.
Proof.
  unfold len. induction ws as [|w ws IH]; intros i fr Hi Hn Hc.
  - simpl in Hn. lia.
  - simpl for_each. unfold bind.
    destruct (setup_walze_cases i w fr ltac:(lia) Hc) as [E|(H3 & E & Hc')];
      destruct (setup_walze (i, w) fr) as [[[]|x] fr1]; simpl in *;
      try discriminate; trivial.
    apply IH; trivial; lia.
Qed.

(** X9: on a machine with more than three Walzen [encode] raises
    [IndexError] for every message, the empty one too, and leaves the
    object as it was: the setup has three counters. *)
Theorem encode_four_walzen msg e :
  (3 < List.length (__walzen e))%nat ->
  encode msg e = (Raise IndexError, e).
Proof.
  intros H. pose proof (encode_self msg e) as Hs.
  assert (E : fst (encode_setup (enter e)) = Raise IndexError).
  { unfold encode_setup, bind, get. simpl. unfold enumerate.
    apply setup_four; [lia|unfold len; lia|reflexivity]. }
  unfold encode, bind in *.
  destruct (encode_setup (enter e)) as [[[]|x] fr0]; simpl in *;
    [discriminate|].
  injection E as ->. now rewrite Hs.
Qed.

Lemma encode_four_walzen_witness :
  encode (py "A") (built enigma4) = (Raise IndexError, built enigma4).
Proof.
  apply (encode_four_walzen (py "A") (built enigma4)).
  vm_compute. repeat constructor.
Defined.

Lemma setup_three ws : forall i fr,
  0 <= i -> i + len ws <= 3 -> i + len ws <= len (__base (self fr)) ->
  List.length (count fr) = 3%nat ->
  fst (for_each (enumerate_from i ws) setup_walze fr) = Ok tt.
Proof.
  unfold len. induction ws as [|w ws IH]; intros i fr Hi Hn Hb Hc.
  - reflexivity.
  - simpl List.length in *. simpl for_each. unfold bind.
    destruct (getitem_in (__base (self fr)) i) as (b & _ & Hg);
      [unfold len; lia|].
    rewrite (setup_walze_run fr i w b Hg) by (unfold len; lia).
    apply IH; simpl; rewrite ?update_length; trivial; lia.
Qed.

Lemma encode_loop_no_letters l fr :
  filter is_letter l = [] -> encode_loop l fr = (Ok tt, fr).
Proof.
  unfold encode_loop. induction l as [|c l IH]; simpl; [reflexivity|].
  destruct (is_letter c) eqn:Hc; [discriminate|].
  intros H. unfold bind. rewrite encode_char_other by assumption. auto.
Qed.

(** X10: on a machine with at most three Walzen and a base letter for
    each, [encode] of an ASCII message without a letter, the empty one too,
    returns the empty string. *)
Theorem encode_no_letters msg e :
  isascii msg = true ->
  (List.length (__walzen e) <= 3)%nat ->
  (List.length (__walzen e) <= List.length (__base e))%nat ->
  letters msg = [] ->
  encode msg e = (Ok [], e).
Proof.
  intros _ Hw Hb Hl. pose proof (encode_self msg e) as Hs.
  assert (E : fst (encode_setup (enter e)) = Ok tt).
  { unfold encode_setup, bind, get. simpl. unfold enumerate.
    apply setup_three; simpl; unfold len; trivial; lia. }
  destruct (quiet_encode_setup (enter e)) as [_ Ho].
  unfold encode, bind in *.
  destruct (encode_setup (enter e)) as [[[]|x] fr0]; simpl in *;
    [|discriminate].
  rewrite encode_loop_no_letters in * by assumption. simpl in *.
  now rewrite Hs, Ho.
Qed.

Lemma encode_no_letters_witness :
  encode (py "1, 2 & 3!") (built enigma26) = (Ok [], built enigma26).
Proof.
  apply (encode_no_letters (py "1, 2 & 3!") (built enigma26)).
  - reflexivity.
  - vm_compute. repeat constructor.
  - vm_compute. repeat constructor.
  - reflexivity.
Defined.

(** ** The Walzen after a call *)

Lemma turn_blind out fr :
  turn (set_encoded_message out fr) = set_encoded_message out (turn fr).
Proof. unfold turn. now rewrite blind_step. Qed.

Lemma turns_blind k out fr :
  Nat.iter k turn (set_encoded_message out fr)
  = set_encoded_message out (Nat.iter k turn fr).
Proof.
  induction k as [|k IH]; simpl; [reflexivity|].
  now rewrite IH, turn_blind.
Qed.

Lemma encode_loop_turns l : forall fr fr',
  encode_loop l fr = (Ok tt, fr') ->
  set_encoded_message [] fr'
  = set_encoded_message []
      (Nat.iter (List.length (filter is_letter l)) turn fr).
Proof.
  unfold encode_loop.
  induction l as [|c l IH]; intros fr fr' H; simpl in H.
  - injection H as <-. reflexivity.
  - unfold bind in H.
    destruct (encode_char c fr) as [[[]|x] fr1] eqn:E1; [|discriminate].
    rewrite (IH _ _ H). simpl filter.
    destruct (is_letter c) eqn:Hc.
    + rewrite encode_char_letter in E1 by assumption.
      destruct (signal (self fr) (walzen fr) c) as [out|x]; [|discriminate].
      assert (E : fr1 = turn (set_encoded_message
                                (encoded_message fr ++ out) fr)).
      { unfold turn. now rewrite E1. }
      rewrite E, turn_blind, turns_blind. simpl List.length.
      rewrite Nat.iter_succ_r. reflexivity.
    + rewrite encode_char_other in E1 by assumption.
      injection E1 as <-. reflexivity.
Qed.

(** X11: the rotation does not look at the letters.  Two runs of the loop
    from one frame that both come to an end, over messages with as many
    letters from [A] to [Z], leave the same Walzen and the same
    counters. *)
Theorem walzen_after_loop l1 l2 fr fr1 fr2 :
  encode_loop l1 fr = (Ok tt, fr1) ->
  encode_loop l2 fr = (Ok tt, fr2) ->
  List.length (filter is_letter l1) = List.length (filter is_letter l2) ->
  walzen fr1 = walzen fr2 /\ count fr1 = count fr2.
Proof.
  intros H1 H2 Hl.
  apply encode_loop_turns in H1. apply encode_loop_turns in H2.
  rewrite Hl in H1. rewrite <- H2 in H1.
  split.
  - change (walzen (set_encoded_message [] fr1)
            = walzen (set_encoded_message [] fr2)). now rewrite H1.
  - change (count (set_encoded_message [] fr1)
            = count (set_encoded_message [] fr2)). now rewrite H1.
Qed.

Lemma walzen_after_loop_witness :
  walzen (snd (encode_loop (py "AB C")
                 (snd (encode_setup (enter (built enigma8))))))
  = walzen (snd (encode_loop (py "HHH")
                   (snd (encode_setup (enter (built enigma8)))))) /\
  count (snd (encode_loop (py "AB C")
                (snd (encode_setup (enter (built enigma8))))))
  = count (snd (encode_loop (py "HHH")
                  (snd (encode_setup (enter (built enigma8)))))).
Proof.
  apply (walzen_after_loop (py "AB C") (py "HHH")
           (snd (encode_setup (enter (built enigma8))))).
  - vm_compute. reflexivity.
  - vm_compute. reflexivity.
  - reflexivity.
Defined.

(** ** What a well-formed machine gives *)

Lemma In_combine_nth {A B} (l : list A) : forall (l' : list B) k a b,
  nth_error l k = Some a -> nth_error l' k = Some b ->
  In (a, b) (combine l l').
Proof.
  induction l as [|x l IH]; intros [|y l'] [|k] a b Ha Hb; simpl in *;
    try discriminate.
  - injection Ha as ->. injection Hb as ->. now left.
  - right. eapply IH; eassumption.
Qed.

Lemma no_fixed_point_at n u y :
  no_fixed_point (az n) u = true -> 0 <= y < Z.of_nat n ->
  getitem u y <> Ok (65 + y).
Proof.
  intros Hf Hy Hg. unfold no_fixed_point in Hf.
  rewrite forallb_forall in Hf.
  pose proof (az_getitem n y Hy) as Ha.
  rewrite getitem_nth in Ha, Hg by lia.
  destruct (nth_error (az n) (Z.to_nat y)) as [a|] eqn:Hna; [|discriminate].
  destruct (nth_error u (Z.to_nat y)) as [b|] eqn:Hnb; [|discriminate].
  injection Ha as ->. injection Hg as ->.
  specialize (Hf _ (In_combine_nth _ _ _ _ _ Hna Hnb)). simpl in Hf.
  rewrite Z.eqb_refl in Hf. discriminate.
Qed.

(** The letter that comes out, and why it is another one when the
    Umkehrwalze has no fixed point. *)
Lemma signal_letter e ws c :
  well_formed e = true ->
  Forall (good (len (__alphabet e))) ws ->
  in_range (len (__alphabet e)) c ->
  exists d, in_range (len (__alphabet e)) d /\
            signal e ws c = Ok [d] /\
            (no_fixed_point (__alphabet e) (__umkehrwalze e) = true ->
             d <> c).
Proof.
  intros Hwf Hws Hc. pose proof (well_formed_Formed e Hwf) as F.
  set (n := List.length (__alphabet e)) in *.
  assert (HN : 1 <= len (__alphabet e) <= 26).
  { unfold len. fold n. pose proof (formed_size _ _ F). lia. }
  change (len (__alphabet e)) with (Z.of_nat n) in *.
  assert (Hrs : Forall (rotor (Z.of_nat n)) (map (shown (Z.of_nat n) 0) ws)).
  { apply Forall_forall. intros w Hw. apply in_map_iff in Hw.
    destruct Hw as (r & <- & Hr). apply good_rotor; [lia|].
    rewrite Forall_forall in Hws. auto. }
  pose proof (fun c => steckerbrett_swaps n (__steckerbrett e) c
                         (formed_pairs _ _ F) (formed_disjoint _ _ F)
                         (formed_stecker _ _ F)) as Hsb.
  destruct (Hsb c) as (d1 & Ho1 & Hi1 & Hb1 & Hd1).
  assert (Rd1 : in_range (Z.of_nat n) d1).
  { destruct Hd1 as [->|Hd1]; [assumption|].
    now apply (formed_stecker _ _ F). }
  destruct (forward_backward n _ (d1 - 65) Hrs) as (y & Hy & Hf & Hb);
    [unfold in_range in Rd1; lia|].
  destruct (umkehrwalze_reflects _ _ y (formed_umkehrwalze _ _ F)
              (formed_involution _ _ F) Hy) as (c2 & Hu & Hc2 & Hu').
  destruct (backward_forward n _ c2 Hrs Hc2) as (d3 & Hd3 & Hb3 & Hf3).
  destruct (Hsb d3) as (d4 & Ho4 & Hi4 & Hb4 & Hd4).
  assert (Rd4 : in_range (Z.of_nat n) d4).
  { destruct Hd4 as [->|Hd4]; [assumption|].
    now apply (formed_stecker _ _ F). }
  exists d4. split; [assumption|]. split.
  - unfold signal.
    rewrite current_walzen_shown by (unfold len; fold n; lia).
    change (len (__alphabet e)) with (Z.of_nat n).
    rewrite (formed_alphabet _ _ F). simpl.
    rewrite Hi1. simpl. rewrite Hf. simpl. rewrite Hu. simpl.
    rewrite Hb3. simpl. rewrite (chr_letter (Z.of_nat n)) by (trivial; lia).
    simpl. now rewrite Ho4.
  - intros Hnf ->. rewrite Hb4 in Ho1. injection Ho1 as <-.
    rewrite Hf in Hf3. injection Hf3 as ->.
    rewrite (formed_alphabet _ _ F) in Hnf.
    apply (no_fixed_point_at n (__umkehrwalze e) (c2 - 65) Hnf Hy).
    rewrite Hu. f_equal. lia.
Qed.

Lemma encode_char_given fr c :
  ready fr ->
  in_range (len (__alphabet (self fr))) c ->
  exists d fr',
    encode_char c fr = (Ok tt, fr') /\
    ready fr' /\ self fr' = self fr /\
    encoded_message fr' = encoded_message fr ++ [d] /\
    in_range (len (__alphabet (self fr))) d /\
    (no_fixed_point (__alphabet (self fr)) (__umkehrwalze (self fr)) = true
     -> d <> c).
Proof.
  intros Hr Hc. pose proof (ready_Formed fr Hr) as F.
  assert (HN : len (__alphabet (self fr)) <= 26).
  { unfold len. pose proof (formed_size _ _ F). lia. }
  pose proof Hr as (Hwf & Hl & Hg & Hcnt).
  destruct (signal_letter (self fr) (walzen fr) c Hwf Hg Hc)
    as (d & Hd & Hs & Hne).
  destruct (steady_step fr Hr) as ([] & fr1 & E1 & R1 & S1 & O1).
  exists d, (set_encoded_message (encoded_message fr ++ [d]) fr1).
  destruct (in_range_is_letter _ c HN Hc) as [Lc _].
  split; [|split; [exact R1|split; [exact S1|auto]]].
  rewrite encode_char_letter by assumption. rewrite Hs.
  rewrite blind_step, E1. reflexivity.
Qed.

Lemma encode_loop_given e msg : forall fr,
  ready fr -> self fr = e ->
  Forall (in_range (len (__alphabet e))) msg ->
  exists code fr',
    encode_loop msg fr = (Ok tt, fr') /\
    encoded_message fr' = encoded_message fr ++ code /\
    Forall2 (fun c d =>
               in_range (len (__alphabet e)) d /\
               (no_fixed_point (__alphabet e) (__umkehrwalze e) = true ->
                d <> c))
            msg code.
Proof.
  unfold encode_loop.
  induction msg as [|c msg IH]; intros fr Hr He Hm.
  - exists [], fr. simpl. rewrite app_nil_r. repeat split; constructor.
  - inversion Hm as [|? ? Hc Hm']; subst.
    destruct (encode_char_given fr c Hr Hc)
      as (d & fr1 & E1 & R1 & S1 & O1 & Hd & Hne).
    destruct (IH fr1 R1 S1 Hm') as (code & fr' & E & O & H2).
    exists (d :: code), fr'. split; [|split].
    + simpl. unfold bind. now rewrite E1.
    + rewrite O, O1, <- app_assoc. reflexivity.
    + constructor; [split; assumption|assumption].
Qed.

Lemma alphabet_letters e msg :
  well_formed e = true ->
  forallb (fun char => contains char (__alphabet e)) msg = true <->
  Forall (in_range (len (__alphabet e))) msg.
Proof.
  intros Hwf. pose proof (well_formed_Formed e Hwf) as F.
  rewrite forallb_forall, Forall_forall.
  split; intros H c Hc; specialize (H c Hc).
  - apply contains_In in H. rewrite (formed_alphabet _ _ F) in H.
    now apply az_In in H.
  - apply contains_In. rewrite (formed_alphabet _ _ F). now apply az_In.
Qed.

Lemma encode_given e msg :
  well_formed e = true ->
  Forall (in_range (len (__alphabet e))) msg ->
  exists code,
    encode msg e = (Ok code, e) /\
    Forall2 (fun c d =>
               in_range (len (__alphabet e)) d /\
               (no_fixed_point (__alphabet e) (__umkehrwalze e) = true ->
                d <> c))
            msg code.
Proof.
  intros Hwf Hm. pose proof (well_formed_Formed e Hwf) as F.
  assert (HN : len (__alphabet e) <= 26).
  { unfold len. pose proof (formed_size _ _ F). lia. }
  destruct (encode_setup_ready e Hwf) as (fr0 & E0 & R0 & S0 & O0).
  destruct (encode_loop_given e msg fr0 R0 S0 Hm) as (code & fr' & E & O & H2).
  exists code. split; [|exact H2].
  pose proof (encode_self msg e) as Hs.
  unfold encode, bind in *. rewrite E0 in *.
  rewrite (upper_letters _ msg HN Hm) in *. rewrite E in *. simpl in *.
  now rewrite Hs, O, O0.
Qed.

(** X12: on a well-formed machine, for a message of letters of the
    alphabet, [encode] returns a string of letters of the alphabet, as long
    as the message. *)
Theorem encode_closed e msg :
  well_formed e = true ->
  forallb (fun char => contains char (__alphabet e)) msg = true ->
  exists code,
    encode msg e = (Ok code, e) /\
    List.length code = List.length msg /\
    forallb (fun char => contains char (__alphabet e)) code = true.
Proof.
  intros Hwf Hm. apply (alphabet_letters e msg Hwf) in Hm.
  destruct (encode_given e msg Hwf Hm) as (code & E & H2).
  exists code. split; [exact E|]. split.
  - symmetry. eapply Forall2_length; eassumption.
  - apply (alphabet_letters e code Hwf).
    clear E Hm. induction H2 as [|c d msg code [Hd _] _ IH]; constructor;
      assumption.
Qed.

Lemma encode_closed_witness :
  exists code,
    encode (py "HELLOWORLD") (built enigma26_stecker)
    = (Ok code, built enigma26_stecker) /\
    List.length code = List.length (py "HELLOWORLD") /\
    forallb (fun char => contains char (__alphabet (built enigma26_stecker)))
      code = true.
Proof.
  apply (encode_closed (built enigma26_stecker) (py "HELLOWORLD"));
    vm_compute; reflexivity.
Defined.

(** X13: on a well-formed machine whose Umkehrwalze has no fixed point, no
    letter of a message of letters of the alphabet comes out as itself. *)
Theorem encode_never_itself e msg code :
  well_formed e = true ->
  no_fixed_point (__alphabet e) (__umkehrwalze e) = true ->
  forallb (fun char => contains char (__alphabet e)) msg = true ->
  fst (encode msg e) = Ok code ->
  Forall2 (fun c d => d <> c) msg code.
Proof.
  intros Hwf Hnf Hm Hc. apply (alphabet_letters e msg Hwf) in Hm.
  destruct (encode_given e msg Hwf Hm) as (code' & E & H2).
  rewrite E in Hc. simpl in Hc. injection Hc as ->.
  clear E Hm. induction H2 as [|c d msg code [_ Hd] _ IH]; constructor; auto.
Qed.

Lemma encode_never_itself_witness :
  Forall2 (fun c d => d <> c) (py "ENIGMAREVEALED") (py "QMJIDOMZWZJFJR").
Proof.
  apply (encode_never_itself (built enigma26));
    vm_compute; reflexivity.
Defined.

(** Its own inverse, from the lemmas on the loop. *)
Lemma encode_back e msg :
  well_formed e = true ->
  Forall (in_range (len (__alphabet e))) msg ->
  exists code, fst (encode msg e) = Ok code /\ fst (encode code e) = Ok msg.
Proof.
  intros Hwf Hm. pose proof (well_formed_Formed e Hwf) as F.
  assert (HN : len (__alphabet e) <= 26).
  { unfold len. pose proof (formed_size _ _ F). lia. }
  destruct (encode_setup_ready e Hwf) as (fr0 & E0 & R0 & S0 & O0).
  destruct (encode_loop_ready e msg fr0 R0 S0 Hm)
    as (code & fr' & Hcode & E & O & B).
  exists code. unfold encode, bind. rewrite E0.
  rewrite (upper_letters _ msg HN Hm), (upper_letters _ code HN Hcode).
  rewrite E. simpl. rewrite O, O0. split; [reflexivity|].
  destruct (B []) as (fr'' & E'' & O'').
  rewrite <- O0, set_encoded_message_same in E''.
  rewrite E''. simpl. now rewrite O''.
Qed.

(** X14: on a well-formed machine two different messages of letters of
    the alphabet have different outputs. *)
Theorem encode_injective e m1 m2 :
  well_formed e = true ->
  forallb (fun char => contains char (__alphabet e)) m1 = true ->
  forallb (fun char => contains char (__alphabet e)) m2 = true ->
  m1 <> m2 ->
  fst (encode m1 e) <> fst (encode m2 e).
Proof.
  intros Hwf H1 H2 Hne H. apply Hne.
  apply (alphabet_letters e m1 Hwf) in H1.
  apply (alphabet_letters e m2 Hwf) in H2.
  destruct (encode_back e m1 Hwf H1) as (c1 & E1 & B1).
  destruct (encode_back e m2 Hwf H2) as (c2 & E2 & B2).
  rewrite E1, E2 in H. injection H as ->. rewrite B1 in B2.
  now injection B2.
Qed.

Lemma encode_injective_witness :
  fst (encode (py "ABBA") (built enigma26))
  <> fst (encode (py "ABBB") (built enigma26)).
Proof.
  apply (encode_injective (built enigma26) (py "ABBA") (py "ABBB"));
    try (vm_compute; reflexivity).
  vm_compute. discriminate.
Defined.

(** ** [random.sample] and [set_walze] without a wiring *)

Lemma take_out {A} (l : list A) i d :
  (i < List.length l)%nat ->
  Permutation l (nth i l d :: firstn i l ++ skipn (S i) l) /\
  S (List.length (firstn i l ++ skipn (S i) l)) = List.length l.
Proof.
  intros Hi. pose proof (nth_error_nth' l d Hi) as Hn.
  pose proof (firstn_skipn_middle _ _ Hn) as E.
  split.
  - rewrite <- E at 1. symmetry. apply Permutation_middle.
  - apply (f_equal (@List.length A)) in E.
    rewrite length_app in E. cbn [List.length] in E.
    rewrite length_app. lia.
Qed.

Lemma sample_takes k : forall population draws,
  (k <= List.length population)%nat ->
  exists w rest,
    sample draws population k = Ok w /\ List.length w = k /\
    Permutation population (w ++ rest).
Proof.
  induction k as [|k IH]; intros population draws Hk.
  - exists [], population. simpl. auto.
  - destruct population as [|c population]; [simpl in Hk; lia|].
    set (pop := c :: population) in *.
    assert (Hp : (0 < List.length pop)%nat) by (unfold pop; simpl; lia).
    pose proof (Nat.mod_upper_bound (hd O draws) (List.length pop)
                  ltac:(lia)) as Hi.
    destruct (take_out pop _ 0 Hi) as [Hperm Hlen].
    destruct (IH (firstn (hd O draws mod List.length pop) pop
                  ++ skipn (S (hd O draws mod List.length pop)) pop)
                (tl draws) ltac:(lia)) as (w & rest & Hs & Hl & Hpw).
    exists (nth (hd O draws mod List.length pop) pop 0 :: w), rest.
    split; [|split].
    + change (sample draws pop (S k))
        with (rbind (sample (tl draws)
                       (firstn (hd O draws mod List.length pop) pop
                        ++ skipn (S (hd O draws mod List.length pop)) pop) k)
                    (fun rest =>
                       Ok (nth (hd O draws mod List.length pop) pop 0
                           :: rest))).
      now rewrite Hs.
    + simpl. now rewrite Hl.
    + simpl. rewrite Hperm. now constructor.
Qed.

Lemma sample_too_many k : forall population draws,
  (List.length population < k)%nat ->
  sample draws population k = Raise ValueError.
Proof.
  induction k as [|k IH]; intros population draws Hk; [lia|].
  destruct population as [|c population]; [reflexivity|].
  set (pop := c :: population) in *.
  assert (Hp : (0 < List.length pop)%nat) by (unfold pop; simpl; lia).
  pose proof (Nat.mod_upper_bound (hd O draws) (List.length pop)
                ltac:(lia)) as Hi.
  destruct (take_out pop _ 0 Hi) as [_ Hlen].
  change (sample draws pop (S k))
    with (rbind (sample (tl draws)
                   (firstn (hd O draws mod List.length pop) pop
                    ++ skipn (S (hd O draws mod List.length pop)) pop) k)
                (fun rest =>
                   Ok (nth (hd O draws mod List.length pop) pop 0 :: rest))).
  rewrite IH by lia. reflexivity.
Qed.

Lemma Permutation_is_wiring a w : Permutation a w -> is_wiring a w = true.
Proof.
  intros H. unfold is_wiring. apply andb_true_intro. split.
  - apply len_eqb. now apply Permutation_length.
  - apply forallb_contains. intros c. now apply Permutation_in.
Qed.

Lemma sample_all population draws :
  exists w, sample draws population (List.length population) = Ok w /\
            Permutation population w.
Proof.
  destruct (sample_takes (List.length population) population draws
              (le_n _)) as (w & rest & Hs & Hl & Hp).
  exists w. split; [assumption|].
  assert (rest = []).
  { apply Permutation_length in Hp. rewrite length_app in Hp.
    destruct rest; [reflexivity|]. simpl in Hp. lia. }
  subst. now rewrite app_nil_r in Hp.
Qed.

(** X15: [set_walze] without a wiring does, whatever the draws, what
    [set_walze] does with some permutation of the alphabet as the wiring:
    the Walze it stores is a permutation of the alphabet. *)
Theorem set_walze_random_wiring draws num e :
  exists walze,
    Permutation (__alphabet e) walze /\
    set_walze_random draws num e = set_walze num walze e.
Proof.
  destruct (sample_all (__alphabet e) draws) as (w & Hs & Hp).
  exists w. split; [assumption|].
  rewrite set_walze_run, (Permutation_is_wiring _ _ Hp).
  unfold set_walze_random, bind, get, lift, put. rewrite Hs.
  destruct (setitem (__walzen e) num w); reflexivity.
Qed.

(** ** A pair of letters out of the residual *)

Lemma remove_char_In c l x : In x (remove_char c l) <-> In x l /\ x <> c.
Proof.
  unfold remove_char. rewrite filter_In. split; intros [H1 H2]; split;
    trivial.
  - intros ->. rewrite Z.eqb_refl in H2. discriminate.
  - destruct (Z.eqb_spec x c); [contradiction|reflexivity].
Qed.

Lemma remove_char_NoDup c l : NoDup l -> NoDup (remove_char c l).
Proof. apply NoDup_filter. Qed.

Lemma remove_char_le c l :
  (List.length (remove_char c l) <= List.length l)%nat.
Proof. apply filter_length_le. Qed.

Lemma remove_char_lt c l :
  In c l -> (List.length (remove_char c l) < List.length l)%nat.
Proof.
  induction l as [|d l IH]; intros H; [destruct H|].
  unfold remove_char in *. simpl.
  destruct (Z.eqb_spec d c) as [->|Hdc]; simpl.
  - pose proof (remove_char_le c l). unfold remove_char in *. lia.
  - destruct H as [H|H]; [contradiction|]. specialize (IH H). lia.
Qed.

Lemma remove_pair_Permutation t0 t1 l :
  NoDup l -> In t0 l -> In t1 l -> t0 <> t1 ->
  Permutation (t0 :: t1 :: remove_char t1 (remove_char t0 l)) l.
Proof.
  intros Hn H0 H1 Hne. apply NoDup_Permutation; [|assumption|].
  - constructor; [|constructor].
    + intros [E|H]; [congruence|].
      apply remove_char_In in H. destruct H as [H _].
      apply remove_char_In in H. destruct H as [_ H]. congruence.
    + intros H. apply remove_char_In in H. destruct H as [_ H]. congruence.
    + now apply remove_char_NoDup, remove_char_NoDup.
  - intros x. simpl. rewrite !remove_char_In. split.
    + intros [<-|[<-|[[H _] _]]]; assumption.
    + intros H. destruct (Z.eq_dec t0 x); [now left|].
      destruct (Z.eq_dec t1 x); [now right; left|].
      right. right. repeat split; trivial; congruence.
Qed.

Lemma draw_pair_short draws residual :
  (List.length residual < 2)%nat ->
  draw_pair draws residual = Raise ValueError.
Proof.
  intros H. unfold draw_pair. now rewrite sample_too_many.
Qed.

Lemma draw_pair_takes draws residual :
  (2 <= List.length residual)%nat ->
  exists t0 t1 rest,
    draw_pair draws residual
    = Ok (t0, t1, remove_char t1 (remove_char t0 residual)) /\
    Permutation residual (t0 :: t1 :: rest).
Proof.
  intros H. destruct (sample_takes 2 residual draws H)
    as (w & rest & Hs & Hl & Hp).
  destruct w as [|t0 [|t1 [|? ?]]]; try discriminate.
  exists t0, t1, rest. split; [|exact Hp].
  unfold draw_pair. rewrite Hs. reflexivity.
Qed.

(** The residual gets shorter at every round. *)
Lemma draw_pair_shorter draws residual t0 t1 residual' :
  draw_pair draws residual = Ok (t0, t1, residual') ->
  (List.length residual' < List.length residual)%nat.
Proof.
  intros H. destruct (Nat.lt_ge_cases (List.length residual) 2) as [Hl|Hl].
  - rewrite draw_pair_short in H by assumption. discriminate.
  - destruct (draw_pair_takes draws residual Hl)
      as (u0 & u1 & rest & E & Hp).
    rewrite E in H. injection H as <- <- <-.
    pose proof (remove_char_le u1 (remove_char u0 residual)).
    assert (In u0 residual).
    { apply Permutation_in with (l := u0 :: u1 :: rest);
        [now apply Permutation_sym|now left]. }
    pose proof (remove_char_lt u0 residual H0). lia.
Qed.

(** With different letters in the residual, the two letters drawn are
    different letters of it, and two letters fewer are left. *)
Lemma draw_pair_NoDup draws residual :
  NoDup residual -> (2 <= List.length residual)%nat ->
  exists t0 t1,
    draw_pair draws residual
    = Ok (t0, t1, remove_char t1 (remove_char t0 residual)) /\
    In t0 residual /\ In t1 residual /\ t0 <> t1 /\
    Permutation (t0 :: t1 :: remove_char t1 (remove_char t0 residual))
      residual.
Proof.
  intros Hn Hl.
  destruct (draw_pair_takes draws residual Hl) as (t0 & t1 & rest & E & Hp).
  exists t0, t1. split; [exact E|].
  assert (H0 : In t0 residual).
  { apply Permutation_in with (l := t0 :: t1 :: rest);
      [now apply Permutation_sym|now left]. }
  assert (H1 : In t1 residual).
  { apply Permutation_in with (l := t0 :: t1 :: rest);
      [now apply Permutation_sym|now right; left]. }
  assert (Hne : t0 <> t1).
  { apply (Permutation_NoDup Hp) in Hn.
    inversion Hn as [|? ? Hx _]; subst. intros ->. apply Hx. now left. }
  auto using remove_pair_Permutation.
Qed.

(** ** [set_steckerbrett] without a list *)

Lemma plug_up_round fuel draws c residual sb number :
  plug_up (S fuel) draws (c :: residual) sb number
  = if len sb <? number then
      match draw_pair (hd [] draws) (c :: residual) with
      | Raise x => Some (Raise x)
      | Ok (t0, t1, residual') =>
          plug_up fuel (tl draws) residual' (sb ++ [[t0; t1]]) number
      end
    else Some (Ok sb).
Proof. reflexivity. Qed.

Lemma plug_up_runs a number : forall fuel draws residual sb,
  plugging a residual sb ->
  (List.length residual <= fuel)%nat ->
  len sb <= Z.max 0 number ->
  exists r,
    plug_up fuel draws residual sb number = Some r /\
    match r with
    | Ok sb' =>
        are_pairs sb' = true /\ NoDup (List.concat sb') /\
        incl (List.concat sb') a /\
        len sb' = Z.min (len a / 2) (Z.max 0 number)
    | Raise x => x = ValueError /\ Nat.Odd (List.length a)
    end.
Proof.
  induction fuel as [|fuel IH]; intros draws residual sb
    (Hp & Hn & Hi & Hc) Hf Hs.
  - destruct residual; [|simpl in Hf; lia].
    exists (Ok sb). split; [reflexivity|].
    rewrite app_nil_r in Hn, Hi. repeat split; trivial.
    unfold len in *. simpl in Hc. Z.div_mod_to_equations. lia.
  - destruct residual as [|c residual].
    + exists (Ok sb). split; [reflexivity|].
      rewrite app_nil_r in Hn, Hi. repeat split; trivial.
      unfold len in *. simpl in Hc. Z.div_mod_to_equations. lia.
    + rewrite plug_up_round. set (res := c :: residual) in *.
      destruct (Z.ltb_spec (len sb) number) as [Hlt|Hge].
      * destruct (Nat.lt_ge_cases (List.length res) 2) as [Hl|Hl].
        { rewrite draw_pair_short by assumption.
          exists (Raise ValueError). split; [reflexivity|].
          split; [reflexivity|]. exists (List.length sb).
          assert (List.length res = 1%nat) by (unfold res in *; simpl in *; lia).
          lia. }
        assert (Hnr : NoDup res) by (eapply NoDup_app_remove_l; eassumption).
        destruct (draw_pair_NoDup (hd [] draws) res Hnr Hl)
          as (t0 & t1 & E & H0 & H1 & Hne & Hperm).
        rewrite E.
        assert (Hall : Permutation
                         (List.concat (sb ++ [[t0; t1]])
                          ++ remove_char t1 (remove_char t0 res))
                         (List.concat sb ++ res)).
        { rewrite concat_app. simpl. rewrite <- app_assoc. simpl.
          now apply Permutation_app_head. }
        apply IH.
        { split; [|split; [|split]].
          - unfold are_pairs in *. rewrite forallb_app.
            apply andb_true_intro. split; [exact Hp|reflexivity].
          - eapply Permutation_NoDup; [apply Permutation_sym|]; eassumption.
          - intros x Hx. apply Hi.
            eapply Permutation_in; eassumption.
          - apply Permutation_length in Hperm.
            rewrite length_app. unfold res in *. simpl in *. lia. }
        { apply Permutation_length in Hperm.
          unfold res in *. simpl in *. lia. }
        { unfold len in *. rewrite length_app. simpl. lia. }
      * exists (Ok sb). split; [reflexivity|].
        split; [assumption|]. split.
        { eapply NoDup_app_remove_r; eassumption. }
        split.
        { intros x Hx. apply Hi. apply in_or_app. now left. }
        unfold len in *. Z.div_mod_to_equations. lia.
Qed.

(** X16: over an alphabet of different characters [set_steckerbrett]
    without a list comes to an end whatever the draws.  Either it stores
    Stecker that are pairs of different letters of the alphabet, no letter
    in two of them, as many as [number] asks for or as the alphabet has
    pairs; or, over an alphabet with an odd number of characters, it raises
    [ValueError] and leaves the object as it was. *)
Theorem set_steckerbrett_random_pairs draws number e :
  NoDup (__alphabet e) ->
  (exists sb,
     set_steckerbrett_random draws number e
     = Some (Ok tt, with_steckerbrett sb e) /\
     are_pairs sb = true /\
     check_steckerbrett (__alphabet e) (List.concat sb) = true /\
     len sb = Z.min (len (__alphabet e) / 2) (Z.max 0 number)) \/
  (set_steckerbrett_random draws number e = Some (Raise ValueError, e) /\
   Nat.Odd (List.length (__alphabet e))).
Proof.
  intros Hn. unfold set_steckerbrett_random.
  destruct (plug_up_runs (__alphabet e) number
              (List.length (__alphabet e)) draws (__alphabet e) [])
    as (r & E & Hr).
  - split; [reflexivity|]. simpl. split; [assumption|].
    split; [apply incl_refl|lia].
  - apply le_n.
  - unfold len. simpl. lia.
  - rewrite E. destruct r as [sb|x].
    + left. exists sb. destruct Hr as (Hp & Hd & Hi & Hc).
      repeat split; trivial.
      apply check_steckerbrett_complete; assumption.
    + right. destruct Hr as [-> Ho]. split; [reflexivity|assumption].
Qed.

Lemma set_steckerbrett_random_pairs_witness :
  (exists sb,
     set_steckerbrett_random [[1; 1]; [2; 0]; [0; 0]]%nat 3 (built enigma8)
     = Some (Ok tt, with_steckerbrett sb (built enigma8)) /\
     are_pairs sb = true /\
     check_steckerbrett (__alphabet (built enigma8)) (List.concat sb) = true /\
     len sb = Z.min (len (__alphabet (built enigma8)) / 2) (Z.max 0 3)) \/
  (set_steckerbrett_random [[1; 1]; [2; 0]; [0; 0]]%nat 3 (built enigma8)
   = Some (Raise ValueError, built enigma8) /\
   Nat.Odd (List.length (__alphabet (built enigma8)))).
Proof.
  apply (set_steckerbrett_random_pairs [[1; 1]; [2; 0]; [0; 0]]%nat 3
           (built enigma8)).
  vm_compute. repeat constructor; simpl; intuition discriminate.
Defined.

(** ** [set_umkehrwalze] without a wiring *)

Lemma pair_up_round fuel draws a c residual u :
  pair_up (S fuel) draws a (c :: residual) u
  = match draw_pair (hd [] draws) (c :: residual) with
    | Raise x => Some (Raise x)
    | Ok (t0, t1, residual') =>
        match swap_pair a u t0 t1 with
        | Raise x => Some (Raise x)
        | Ok u' => pair_up fuel (tl draws) a residual' u'
        end
    end.
Proof. reflexivity. Qed.

Lemma In_place a c :
  In c a ->
  exists k, (k < List.length a)%nat /\ nth_error a k = Some c /\
            index c a = Ok (Z.of_nat k).
Proof.
  intros H. destruct (In_index c a H) as (i & Hi & Hx & Hg).
  exists (Z.to_nat i). unfold len in Hi.
  rewrite getitem_nth in Hg by lia.
  destruct (nth_error a (Z.to_nat i)) eqn:Hn; [|discriminate].
  injection Hg as ->. rewrite Z2Nat.id by lia. repeat split; trivial. lia.
Qed.

Lemma same_place (a : str) i j c :
  NoDup a -> nth_error a i = Some c -> nth_error a j = Some c -> i = j.
Proof.
  intros Hn Hi Hj. apply (proj1 (NoDup_nth_error a) Hn).
  - apply nth_error_Some. congruence.
  - congruence.
Qed.

Lemma swap_pair_at a u t0 t1 ka kb :
  List.length u = List.length a ->
  (ka < List.length a)%nat -> (kb < List.length a)%nat ->
  index t0 a = Ok (Z.of_nat ka) -> index t1 a = Ok (Z.of_nat kb) ->
  swap_pair a u t0 t1 = Ok (update (update u ka t1) kb t0).
Proof.
  intros Hl Ha Hb Ia Ib. unfold swap_pair. rewrite Ia, Ib. simpl.
  rewrite setitem_in by (unfold len; lia). simpl.
  rewrite setitem_in by (unfold len; rewrite update_length; lia).
  now rewrite !Nat2Z.id.
Qed.

(** A round of the loop keeps [pairing]. *)
Lemma pairing_round a residual u t0 t1 ka kb :
  NoDup a -> pairing a residual u ->
  In t0 residual -> In t1 residual -> t0 <> t1 ->
  nth_error a ka = Some t0 -> nth_error a kb = Some t1 ->
  pairing a (remove_char t1 (remove_char t0 residual))
    (update (update u ka t1) kb t0).
Proof.
  intros Hn (Hl & Hr & Hi & Hp) H0 H1 Hne Ha Hb.
  assert (Hab : ka <> kb) by (intros ->; congruence).
  assert (Hka : (ka < List.length u)%nat).
  { rewrite Hl. apply nth_error_Some. congruence. }
  assert (Hkb : (kb < List.length (update u ka t1))%nat).
  { rewrite update_length, Hl. apply nth_error_Some. congruence. }
  assert (Ua : nth_error (update (update u ka t1) kb t0) ka = Some t1).
  { rewrite update_other by assumption. now apply update_nth. }
  assert (Ub : nth_error (update (update u ka t1) kb t0) kb = Some t0).
  { now apply update_nth. }
  assert (Uo : forall i, i <> ka -> i <> kb ->
                 nth_error (update (update u ka t1) kb t0) i
                 = nth_error u i).
  { intros i Hia Hib. now rewrite !update_other. }
  assert (Hin : forall x, In x (remove_char t1 (remove_char t0 residual))
                          <-> In x residual /\ x <> t0 /\ x <> t1).
  { intros x. rewrite !remove_char_In. tauto. }
  split; [now rewrite !update_length|].
  split; [now apply remove_char_NoDup, remove_char_NoDup|].
  split; [intros x Hx; apply Hi; now apply Hin in Hx|].
  intros i c Hc.
  destruct (Z.eq_dec c t0) as [->|Hc0].
  { assert (i = ka) by exact (same_place a i ka t0 Hn Hc Ha). subst i.
    right. split; [rewrite Hin; tauto|].
    exists t1, kb. repeat split; trivial; try congruence.
    rewrite Hin. tauto. }
  destruct (Z.eq_dec c t1) as [->|Hc1].
  { assert (i = kb) by exact (same_place a i kb t1 Hn Hc Hb). subst i.
    right. split; [rewrite Hin; tauto|].
    exists t0, ka. repeat split; trivial.
    rewrite Hin. tauto. }
  assert (Hia : i <> ka) by (intros ->; congruence).
  assert (Hib : i <> kb) by (intros ->; congruence).
  rewrite Uo by assumption.
  destruct (Hp i c Hc) as [[Hcr Hu]|(Hcr & d & j & Hu & Hdc & Hdr & Hj & Huj)].
  - left. split; [rewrite Hin; tauto|assumption].
  - right. split; [rewrite Hin; tauto|].
    exists d, j. repeat split; trivial.
    + rewrite Hin. tauto.
    + rewrite Uo; trivial; intros ->; congruence.
Qed.

Lemma pairing_done a u : pairing a [] u -> mirrors a u.
Proof.
  intros (Hl & _ & _ & Hp). split; [assumption|].
  intros i c Hc.
  destruct (Hp i c Hc) as [[[] _]|(_ & d & j & Hu & Hdc & _ & Hj & Huj)].
  exists d, j. auto.
Qed.

Lemma pair_up_runs a : NoDup a -> forall fuel draws residual u,
  pairing a residual u ->
  (List.length residual <= fuel)%nat ->
  exists r,
    pair_up fuel draws a residual u = Some r /\
    match r with
    | Ok u' => mirrors a u' /\ Nat.Even (List.length residual)
    | Raise x => x = ValueError /\ Nat.Odd (List.length residual)
    end.
Proof.
  intros Hn. induction fuel as [|fuel IH]; intros draws residual u Hp Hf.
  - destruct residual; [|simpl in Hf; lia].
    exists (Ok u). split; [reflexivity|].
    split; [now apply pairing_done|]. now exists O.
  - destruct residual as [|c residual].
    + exists (Ok u). split; [reflexivity|].
      split; [now apply pairing_done|]. now exists O.
    + rewrite pair_up_round. set (res := c :: residual) in *.
      destruct (Nat.lt_ge_cases (List.length res) 2) as [Hl|Hl].
      { rewrite draw_pair_short by assumption.
        exists (Raise ValueError). split; [reflexivity|].
        split; [reflexivity|]. exists O. unfold res in *. simpl in *. lia. }
      pose proof Hp as (Hlu & Hnr & Hir & _).
      destruct (draw_pair_NoDup (hd [] draws) res Hnr Hl)
        as (t0 & t1 & E & H0 & H1 & Hne & Hperm).
      rewrite E.
      destruct (In_place a t0 (Hir _ H0)) as (ka & Hka & Na & Ia).
      destruct (In_place a t1 (Hir _ H1)) as (kb & Hkb & Nb & Ib).
      rewrite (swap_pair_at a u t0 t1 ka kb) by assumption.
      apply Permutation_length in Hperm. simpl in Hperm.
      destruct (IH (tl draws) (remove_char t1 (remove_char t0 res))
                  (update (update u ka t1) kb t0)) as (r & Er & Hr).
      * now apply pairing_round.
      * unfold res in *. simpl List.length in *. lia.
      * exists r. split; [exact Er|].
        destruct r as [u'|x].
        -- destruct Hr as [Hm [k Hk]]. split; [assumption|].
           exists (S k). unfold res in *. simpl List.length in *. lia.
        -- destruct Hr as [Hx [k Hk]]. split; [assumption|].
           exists (S k). unfold res in *. simpl List.length in *. lia.
Qed.

Lemma pairing_start a : NoDup a -> pairing a a a.
Proof.
  intros Hn. split; [reflexivity|]. split; [assumption|].
  split; [apply incl_refl|].
  intros i c Hc. left. split; [|assumption].
  eapply nth_error_In; eassumption.
Qed.

Lemma mirrors_incl a u : mirrors a u -> incl a u.
Proof.
  intros [_ Hm] c Hc. apply In_nth_error in Hc. destruct Hc as [i Hi].
  destruct (Hm i c Hi) as (d & j & _ & _ & _ & Hj).
  eapply nth_error_In; eassumption.
Qed.

Lemma mirrors_Permutation a u : NoDup a -> mirrors a u -> Permutation a u.
Proof.
  intros Hn Hm. apply NoDup_Permutation_bis; trivial.
  - destruct Hm as [Hl _]. lia.
  - now apply mirrors_incl.
Qed.

(** X17: over an alphabet of different characters [set_umkehrwalze]
    without a wiring comes to an end whatever the draws.  When the number
    of characters is even it stores a permutation of the alphabet that
    pairs the letters up: each letter is sent to another one, and that one
    is sent back.  When the number is odd it raises [ValueError] and leaves
    the object as it was. *)
Theorem set_umkehrwalze_random_mirrors draws e :
  NoDup (__alphabet e) ->
  (Nat.Even (List.length (__alphabet e)) ->
   exists u,
     set_umkehrwalze_random draws e = Some (Ok tt, with_umkehrwalze u e) /\
     mirrors (__alphabet e) u /\ Permutation (__alphabet e) u) /\
  (Nat.Odd (List.length (__alphabet e)) ->
   set_umkehrwalze_random draws e = Some (Raise ValueError, e)).
Proof.
  intros Hn. unfold set_umkehrwalze_random.
  destruct (pair_up_runs (__alphabet e) Hn (List.length (__alphabet e))
              draws (__alphabet e) (__alphabet e)
              (pairing_start _ Hn) (le_n _)) as (r & E & Hr).
  rewrite E. split.
  - intros He. destruct r as [u|x].
    + exists u. destruct Hr as [Hm _].
      auto using mirrors_Permutation.
    + destruct Hr as [_ Ho]. exfalso.
      eapply Nat.Even_Odd_False; eassumption.
  - intros Ho. destruct r as [u|x].
    + destruct Hr as [_ He]. exfalso.
      eapply Nat.Even_Odd_False; eassumption.
    + destruct Hr as [-> _]. reflexivity.
Qed.

Lemma set_umkehrwalze_random_mirrors_witness :
  (exists u,
     set_umkehrwalze_random [[1; 1]; [2; 0]; [0; 0]]%nat (built enigma8)
     = Some (Ok tt, with_umkehrwalze u (built enigma8)) /\
     mirrors (__alphabet (built enigma8)) u /\
     Permutation (__alphabet (built enigma8)) u) /\
  set_umkehrwalze_random [[1; 1]]%nat (built (init 3 (py "ABC")))
  = Some (Raise ValueError, built (init 3 (py "ABC"))).
Proof.
  split.
  - apply (proj1 (set_umkehrwalze_random_mirrors
                    [[1; 1]; [2; 0]; [0; 0]]%nat (built enigma8)
                    ltac:(vm_compute; repeat constructor; simpl;
                          intuition discriminate))).
    exists 4%nat. reflexivity.
  - apply (proj2 (set_umkehrwalze_random_mirrors
                    [[1; 1]]%nat (built (init 3 (py "ABC")))
                    ltac:(vm_compute; repeat constructor; simpl;
                          intuition discriminate))).
    exists 1%nat. reflexivity.
Defined.

(** ** The random constructor *)

Lemma az_nth n j c :
  nth_error (az n) j = Some c <-> (j < n)%nat /\ c = 65 + Z.of_nat j.
Proof.
  unfold az. rewrite nth_error_map, nth_error_seq.
  destruct (Nat.ltb_spec j n); simpl; split.
  - intros E. injection E as <-. split; [assumption|reflexivity].
  - intros [_ ->]. reflexivity.
  - discriminate.
  - intros [H' _]. lia.
Qed.

Lemma enumerate_from_In {A} (l : list A) : forall k i x,
  In (i, x) (enumerate_from k l) ->
  exists j, i = k + Z.of_nat j /\ nth_error l j = Some x.
Proof.
  induction l as [|y l IH]; intros k i x H; simpl in H; [destruct H|].
  destruct H as [E|H].
  - injection E as <- <-. exists O. split; [lia|reflexivity].
  - destruct (IH _ _ _ H) as (j & -> & Hj). exists (S j).
    split; [lia|assumption].
Qed.

Lemma combine_In_nth {A B} (l : list A) : forall (l' : list B) x y,
  In (x, y) (combine l l') ->
  exists k, nth_error l k = Some x /\ nth_error l' k = Some y.
Proof.
  induction l as [|a l IH]; intros [|b l'] x y H; simpl in H;
    try contradiction.
  destruct H as [E|H].
  - injection E as <- <-. exists O. auto.
  - destruct (IH _ _ _ H) as (k & H1 & H2). exists (S k). auto.
Qed.

Lemma mirrors_no_fixed_point a u :
  mirrors a u -> no_fixed_point a u = true.
Proof.
  intros [_ Hm]. unfold no_fixed_point. apply forallb_forall.
  intros [x y] H. destruct (combine_In_nth _ _ _ _ H) as (k & Hx & Hy).
  destruct (Hm k x Hx) as (d & j & Hd & Hne & _).
  rewrite Hd in Hy. injection Hy as <-. simpl.
  destruct (Z.eqb_spec x d); [congruence|reflexivity].
Qed.

Lemma mirrors_involution n u : mirrors (az n) u -> is_involution u = true.
Proof.
  intros [Hl Hm]. unfold is_involution. apply forallb_forall.
  intros [i c] H. unfold enumerate in H.
  destruct (enumerate_from_In _ _ _ _ H) as (j & -> & Hj). simpl.
  assert (Hjn : (j < n)%nat).
  { rewrite az_length in Hl. rewrite <- Hl. apply nth_error_Some. congruence. }
  destruct (Hm j (65 + Z.of_nat j)) as (d & j' & Hd & _ & Ha & Hu).
  { apply az_nth. auto. }
  rewrite Hd in Hj. injection Hj as ->.
  apply az_nth in Ha. destruct Ha as [_ ->].
  replace (65 + Z.of_nat j' - 65) with (Z.of_nat j') by lia.
  rewrite getitem_nth by lia. rewrite Nat2Z.id, Hu.
  apply Z.eqb_eq. lia.
Qed.

Lemma str_eqb_refl s : str_eqb s s = true.
Proof.
  induction s as [|c s IH]; simpl; [reflexivity|].
  now rewrite Z.eqb_refl, IH.
Qed.

Lemma set_walze_random_at draws num e ws :
  setitem (__walzen e) num (__alphabet e) = Ok ws ->
  exists w,
    Permutation (__alphabet e) w /\
    exists ws', setitem (__walzen e) num w = Ok ws' /\
                set_walze_random draws num e = (Ok tt, with_walzen ws' e).
Proof.
  intros Hs. destruct (sample_all (__alphabet e) draws) as (w & Hw & Hp).
  exists w. split; [assumption|].
  unfold setitem in *. destruct (_ || _) eqn:Hb; [discriminate|].
  eexists. split; [reflexivity|].
  unfold set_walze_random, bind, get, lift, put. rewrite Hw.
  unfold setitem. now rewrite Hb.
Qed.

(** The three Walzen of the random constructor. *)
Lemma set_walzen_random_three dw e a1 a2 a3 :
  __walzen e = [a1; a2; a3] ->
  exists w1 w2 w3,
    Permutation (__alphabet e) w1 /\ Permutation (__alphabet e) w2 /\
    Permutation (__alphabet e) w3 /\
    set_walzen_random dw 0 3 e = (Ok tt, with_walzen [w1; w2; w3] e).
Proof.
  intros Hw.
  destruct (set_walze_random_at (hd [] dw) 0 e [__alphabet e; a2; a3])
    as (w1 & P1 & ws1 & S1 & E1); [now rewrite Hw|].
  rewrite Hw in S1. injection S1 as <-.
  set (e1 := with_walzen [w1; a2; a3] e) in *.
  destruct (set_walze_random_at (hd [] (tl dw)) 1 e1 [w1; __alphabet e; a3])
    as (w2 & P2 & ws2 & S2 & E2); [reflexivity|].
  injection S2 as <-.
  set (e2 := with_walzen [w1; w2; a3] e1) in *.
  destruct (set_walze_random_at (hd [] (tl (tl dw))) 2 e2
              [w1; w2; __alphabet e])
    as (w3 & P3 & ws3 & S3 & E3); [reflexivity|].
  injection S3 as <-.
  exists w1, w2, w3. repeat split; trivial.
  unfold e2, e1, str in *.
  simpl set_walzen_random. unfold bind. rewrite E1. cbv beta iota.
  change (0 + 1) with 1. rewrite E2. cbv beta iota.
  change (1 + 1) with 2. rewrite E3. reflexivity.
Qed.

(** The machine of the random constructor over the first [n] capital
    letters, [n] even. *)
Lemma init_random_runs n dw du ds dr :
  (2 <= n <= 26)%nat -> Nat.Even n ->
  exists e,
    init_random 3 (az n) dw du ds dr = Some (Ok e) /\
    well_formed e = true /\
    no_fixed_point (__alphabet e) (__umkehrwalze e) = true.
Proof.
  intros Hn He.
  assert (H0 : getitem (az n) 0 = Ok 65).
  { rewrite az_getitem by lia. reflexivity. }
  unfold init_random, init. rewrite H0. simpl rbind.
  set (e0 := {| __num_walzen := 3 |}).
  destruct (set_walzen_random_three dw e0 (az n) (az n) (az n) eq_refl)
    as (w1 & w2 & w3 & P1 & P2 & P3 & E1).
  change (Z.to_nat 3) with 3%nat. rewrite E1.
  set (e1 := with_walzen [w1; w2; w3] e0) in *.
  unfold set_umkehrwalze_random.
  change (__alphabet e1) with (az n).
  destruct (pair_up_runs (az n) (az_NoDup n) (List.length (az n)) du
              (az n) (az n) (pairing_start _ (az_NoDup n)) (le_n _))
    as (ru & Eu & Hu).
  rewrite Eu. destruct ru as [u|x].
  2:{ destruct Hu as [_ Ho]. rewrite az_length in Ho. exfalso.
      eapply Nat.Even_Odd_False; eassumption. }
  destruct Hu as [Hm _].
  set (e2 := with_umkehrwalze u e1) in *.
  unfold set_steckerbrett_random.
  change (__alphabet e2) with (az n).
  destruct (plug_up_runs (az n) 10 (List.length (az n)) ds (az n) [])
    as (rs & Es & Hs).
  { split; [reflexivity|]. simpl. split; [apply az_NoDup|].
    split; [apply incl_refl|lia]. }
  { apply le_n. }
  { unfold len. simpl. lia. }
  rewrite Es. destruct rs as [sb|x].
  2:{ destruct Hs as [_ Ho]. rewrite az_length in Ho. exfalso.
      eapply Nat.Even_Odd_False; eassumption. }
  destruct Hs as (Hp & Hd & Hi & _).
  set (e3 := with_steckerbrett sb e2) in *.
  eexists. split; [reflexivity|]. simpl.
  split; [|now apply mirrors_no_fixed_point].
  unfold well_formed. simpl.
  unfold len at 1 2. rewrite az_length.
  destruct (Z.leb_spec 1 (Z.of_nat n)); [|lia].
  destruct (Z.leb_spec (Z.of_nat n) 26); [|lia].
  rewrite str_eqb_refl.
  rewrite !Permutation_is_wiring by assumption.
  rewrite (Permutation_is_wiring _ _ (mirrors_Permutation _ _ (az_NoDup n) Hm)).
  rewrite (mirrors_involution n u Hm), Hp.
  rewrite (check_steckerbrett_complete _ _ Hd Hi).
  assert (Hc : contains 65 (az n) = true).
  { apply contains_In, az_In. unfold in_range. lia. }
  rewrite Hc. reflexivity.
Qed.

(** X18: the random constructor with three Walzen over the first [n]
    capital letters, [n] even from 2 to 26, returns whatever the draws, and
    the machine it returns is well formed with an Umkehrwalze without a
    fixed point.  On that machine [encode] of a message of letters of the
    alphabet returns, no letter comes out as itself, and [encode] of the
    output gives the message back. *)
Theorem init_random_well_formed n dw du ds dr :
  (2 <= n <= 26)%nat -> Nat.Even n ->
  exists e,
    init_random 3 (az n) dw du ds dr = Some (Ok e) /\
    well_formed e = true /\
    no_fixed_point (__alphabet e) (__umkehrwalze e) = true /\
    forall msg,
      forallb (fun char => contains char (__alphabet e)) msg = true ->
      exists code,
        fst (encode msg e) = Ok code /\
        Forall2 (fun c d => d <> c) msg code /\
        fst (encode code e) = Ok msg.
Proof.
  intros Hn He.
  destruct (init_random_runs n dw du ds dr Hn He) as (e & E & Hwf & Hnf).
  exists e. repeat split; trivial.
  intros msg Hm. apply (alphabet_letters e msg Hwf) in Hm.
  destruct (encode_back e msg Hwf Hm) as (code & Ec & Eb).
  exists code. repeat split; trivial.
  destruct (encode_given e msg Hwf Hm) as (code' & E' & H2).
  rewrite E' in Ec. simpl in Ec. injection Ec as ->.
  clear - H2 Hnf. induction H2 as [|c d msg code [_ Hd] _ IH];
    constructor; auto.
Qed.

Lemma init_random_well_formed_witness :
  exists e,
    init_random 3 (az 8) [[1; 2; 3]; [5; 5; 5; 7]; []]%nat
      [[1; 1]; [2; 0]; [0; 0]]%nat [[4; 4]]%nat [3; 4; 5] = Some (Ok e) /\
    well_formed e = true /\
    no_fixed_point (__alphabet e) (__umkehrwalze e) = true /\
    forall msg,
      forallb (fun char => contains char (__alphabet e)) msg = true ->
      exists code,
        fst (encode msg e) = Ok code /\
        Forall2 (fun c d => d <> c) msg code /\
        fst (encode code e) = Ok msg.
Proof.
  apply (init_random_well_formed 8).
  - lia.
  - exists 4%nat. reflexivity.
Defined.

(** ** The machine of the constructor *)

Lemma keeps_ret P {A} (x : A) : keeps P (ret x).
Proof. intros fr a fr' H E. injection E as _ <-. exact H. Qed.

Lemma keeps_bind P {A B} (m : M Frame A) (k : A -> M Frame B) :
  keeps P m -> (forall x, keeps P (k x)) -> keeps P (bind m k).
Proof.
  intros Hm Hk fr b fr' H E. unfold bind in E.
  destruct (m fr) as [[a|x] fr1] eqn:E1; [|discriminate].
  eapply Hk; [|exact E]. eapply Hm; eassumption.
Qed.

Lemma getitem_0 {A} (w : list A) h :
  getitem w 0 = Ok h -> exists t, w = h :: t.
Proof.
  destruct w as [|x t]; [discriminate|].
  intros E. injection E as ->. now exists t.
Qed.

Lemma keeps_rotate P k :
  (forall w, P w -> P (rot w)) -> keeps P (rotate k).
Proof.
  intros HP fr a fr' H E. unfold rotate, bind, get, lift, put in E.
  destruct (getitem (walzen fr) k) as [w|x] eqn:Ew; [|discriminate].
  destruct (getitem w 0) as [h|x] eqn:Eh; [|discriminate].
  destruct (getitem_0 w h Eh) as [t ->]. rewrite slice_from_1 in E.
  unfold setitem in E. destruct (_ || _); [discriminate|].
  injection E as _ <-. simpl. apply Forall_update; [assumption|].
  apply (HP (h :: t)). rewrite Forall_forall in H. apply H.
  eapply getitem_In; eassumption.
Qed.

Lemma keeps_tick P k : keeps P (tick k).
Proof.
  intros fr a fr' H E. unfold tick, bind, get, lift, put, ret in E.
  destruct (getitem (count fr) k); [|discriminate].
  destruct (setitem (count fr) k _); [|discriminate].
  injection E as _ <-. exact H.
Qed.

Lemma keeps_ringkerbe P k : keeps P (ringkerbe k).
Proof.
  intros fr a fr' H E. unfold ringkerbe, bind, get, lift in E.
  destruct (getitem _ k); [|discriminate].
  injection E as _ <-. exact H.
Qed.

Lemma keeps_step P : (forall w, P w -> P (rot w)) -> keeps P step.
Proof.
  intros HP. unfold step.
  repeat first
    [ apply keeps_rotate; assumption | apply keeps_tick
    | apply keeps_ringkerbe | apply keeps_ret | apply keeps_bind
    | match goal with
      | |- forall _, keeps _ _ => intro
      | |- keeps _ (if ?b then _ else _) => destruct b
      end ].
Qed.

Lemma rot_repeat {A} (x : A) n : rot (repeat x n) = repeat x n.
Proof.
  destruct n as [|n]; [reflexivity|]. simpl.
  change [x] with (repeat x 1). rewrite <- repeat_app.
  now rewrite Nat.add_1_r.
Qed.

Lemma shown_zeros N : forall k i,
  shown N i (repeat 0 k)
  = map (fun j => (0 + (i + Z.of_nat j)) mod N + 65) (seq 0 k).
Proof.
  unfold shown. induction k as [|k IH]; intros i; simpl; [reflexivity|].
  f_equal; [do 3 f_equal; lia|].
  rewrite IH, <- seq_shift, map_map. apply map_ext. intros j.
  do 3 f_equal. lia.
Qed.

Lemma shown_zeros_az n : shown (Z.of_nat n) 0 (repeat 0 n) = az n.
Proof.
  rewrite shown_zeros. unfold az. apply map_ext_in. intros j Hj.
  apply in_seq in Hj. rewrite Z.mod_small by lia. lia.
Qed.

Lemma relation_walze_az n : relation_walze (az n) = repeat 0 n.
Proof.
  unfold relation_walze, enumerate, az.
  assert (H : forall k i,
             map (fun jc : Z * Z => snd jc - 65 - fst jc)
               (enumerate_from (Z.of_nat i)
                  (map (fun j => 65 + Z.of_nat j) (seq i k)))
             = repeat 0 k).
  { induction k as [|k IH]; intros i; simpl; [reflexivity|].
    f_equal; [lia|].
    replace (Z.of_nat i + 1) with (Z.of_nat (S i)) by lia. apply IH. }
  apply (H n O).
Qed.

Lemma forward_az n k : forall x,
  0 <= x < Z.of_nat n -> forward (repeat (az n) k) x = Ok x.
Proof.
  induction k as [|k IH]; intros x Hx; simpl; [reflexivity|].
  rewrite az_getitem by assumption. simpl.
  replace (65 + x - 65) with x by lia. now apply IH.
Qed.

Lemma backward_az n k : forall c,
  in_range (Z.of_nat n) c -> backward (az n) (repeat (az n) k) c = Ok c.
Proof.
  induction k as [|k IH]; intros c Hc; simpl; [reflexivity|].
  unfold in_range in Hc.
  rewrite (getitem_index (az n) (c - 65) c (az_NoDup n)); try lia.
  - simpl. rewrite az_getitem by lia. simpl.
    replace (65 + (c - 65)) with c by lia. now apply IH.
  - rewrite az_getitem by lia. f_equal. lia.
Qed.

(** With the alphabet as Umkehrwalze, no Stecker and Walzen that stand
    for the alphabet, a letter comes out as itself. *)
Lemma signal_plain e n ws c :
  (1 <= n <= 26)%nat ->
  __alphabet e = az n -> __umkehrwalze e = az n -> __steckerbrett e = [] ->
  Forall (eq (repeat 0 n)) ws ->
  in_range (Z.of_nat n) c ->
  signal e ws c = Ok [c].
Proof.
  intros Hn Ha Hu Hs Hws Hc. unfold signal.
  assert (Hl : len (__alphabet e) = Z.of_nat n).
  { rewrite Ha. unfold len. now rewrite az_length. }
  rewrite current_walzen_shown by lia. rewrite Hl, Ha, Hu, Hs.
  assert (Hm : map (shown (Z.of_nat n) 0) ws
               = repeat (az n) (List.length ws)).
  { induction Hws as [|w ws <- _ IH]; simpl; [reflexivity|].
    now rewrite shown_zeros_az, IH. }
  rewrite Hm. simpl. unfold in_range in Hc.
  rewrite rev_repeat, forward_az by lia. simpl.
  rewrite az_getitem by lia. simpl.
  replace (65 + (c - 65)) with c by lia.
  rewrite backward_az by assumption. simpl.
  rewrite (chr_letter (Z.of_nat n)) by (trivial; lia). reflexivity.
Qed.

Lemma encode_loop_plain n msg : forall fr,
  ready fr ->
  __alphabet (self fr) = az n -> __umkehrwalze (self fr) = az n ->
  __steckerbrett (self fr) = [] ->
  Forall (eq (repeat 0 n)) (walzen fr) ->
  Forall (in_range (Z.of_nat n)) msg ->
  exists fr',
    encode_loop msg fr = (Ok tt, fr') /\
    encoded_message fr' = encoded_message fr ++ msg.
Proof.
  unfold encode_loop.
  induction msg as [|c msg IH]; intros fr Hr Ha Hu Hs Hws Hm.
  - exists fr. simpl. now rewrite app_nil_r.
  - inversion Hm as [|? ? Hc Hm']; subst.
    pose proof (formed_size _ _ (ready_Formed fr Hr)) as Hn.
    rewrite Ha, az_length in Hn.
    destruct (steady_step (set_encoded_message (encoded_message fr ++ [c]) fr)
                Hr) as ([] & fr1 & E1 & R1 & S1 & O1).
    simpl in S1, O1.
    destruct (IH fr1 R1) as (fr' & E & O); try (rewrite S1; assumption);
      trivial.
    { apply (keeps_step (eq (repeat 0 n))
               (fun w (H : repeat 0 n = w) =>
                  eq_trans (eq_sym (rot_repeat 0 n)) (f_equal rot H))
               (set_encoded_message (encoded_message fr ++ [c]) fr) tt fr1
               Hws E1). }
    exists fr'. split.
    + simpl. unfold bind.
      rewrite encode_char_letter
        by (apply (in_range_is_letter (Z.of_nat n)); trivial; lia).
      rewrite (signal_plain (self fr) n) by assumption.
      now rewrite E1.
    + rewrite O, O1, <- app_assoc. reflexivity.
Qed.

Lemma is_involution_az n : is_involution (az n) = true.
Proof.
  unfold is_involution. apply forallb_forall. intros [i c] H.
  unfold enumerate in H.
  destruct (enumerate_from_In _ _ _ _ H) as (j & -> & Hj). simpl.
  apply az_nth in Hj. destruct Hj as [Hj ->].
  replace (65 + Z.of_nat j - 65) with (Z.of_nat j) by lia.
  rewrite az_getitem by lia. apply Z.eqb_eq. lia.
Qed.

(** X19: the machine the constructor returns for three Walzen over the
    first [n] capital letters, [n] from 1 to 26, changes nothing: [encode]
    of a message of letters of the alphabet returns the message. *)
Theorem encode_plain n e msg :
  (1 <= n <= 26)%nat ->
  init 3 (az n) = Ok e ->
  forallb (fun char => contains char (az n)) msg = true ->
  encode msg e = (Ok msg, e).
Proof.
  intros Hn Hi Hmsg.
  assert (Hm : Forall (in_range (Z.of_nat n)) msg).
  { apply Forall_forall. intros c Hc. rewrite forallb_forall in Hmsg.
    apply az_In, contains_In. auto. }
  unfold init in Hi. rewrite az_getitem in Hi by lia. simpl in Hi.
  injection Hi as <-. set (e := {| __num_walzen := 3 |}).
  assert (Hwf : well_formed e = true).
  { unfold well_formed. simpl. unfold len at 1 2. rewrite az_length.
    destruct (Z.leb_spec 1 (Z.of_nat n)); [|lia].
    destruct (Z.leb_spec (Z.of_nat n) 26); [|lia].
    rewrite str_eqb_refl, !is_wiring_refl, is_involution_az.
    assert (Hc : contains (65 + 0) (az n) = true).
    { apply contains_In, az_In. unfold in_range. lia. }
    rewrite Hc. reflexivity. }
  destruct (encode_setup_ready e Hwf) as (fr0 & E0 & R0 & S0 & O0).
  assert (W0 : walzen fr0 = repeat (repeat 0 n) 3).
  { assert (E : encode_setup (enter e)
                = (Ok tt,
                   {| self := e; walzen := repeat (repeat 0 n) 3;
                      count := [0; 0; 0]; encoded_message := [] |})).
    { unfold encode_setup, bind at 1, get. simpl self.
      change (enumerate (__walzen e))
        with [(0, az n); (1, az n); (2, az n)].
      simpl for_each. unfold bind, ret.
      rewrite (setup_walze_run _ 0 (az n) (65 + 0));
        [|reflexivity|simpl; unfold len; simpl; lia].
      rewrite (setup_walze_run _ 1 (az n) (65 + 0));
        [|reflexivity|simpl; unfold len; simpl; lia].
      rewrite (setup_walze_run _ 2 (az n) (65 + 0));
        [|reflexivity|simpl; unfold len; simpl; lia].
      rewrite relation_walze_az.
      replace (65 + 0 - 65) with 0 by lia.
      unfold slice_from, slice_to, clamp. simpl.
      assert (Hz : Z.to_nat (Z.min 0 (len (repeat 0 n))) = 0%nat)
        by (unfold len; lia).
      rewrite Hz. simpl. rewrite app_nil_r. reflexivity. }
    rewrite E in E0. injection E0 as <-. reflexivity. }
  destruct (encode_loop_plain n msg fr0 R0) as (fr' & E & O);
    try (rewrite S0; reflexivity); trivial.
  { rewrite W0. repeat constructor. }
  pose proof (encode_self msg e) as Hs.
  assert (HN : Z.of_nat n <= 26) by lia.
  unfold encode, bind in *. rewrite E0 in *.
  rewrite (upper_letters _ msg HN Hm) in *. rewrite E in *. simpl in *.
  now rewrite Hs, O, O0.
Qed.

Lemma encode_plain_witness :
  encode (py "HELLO") (built (init 3 (az 26)))
  = (Ok (py "HELLO"), built (init 3 (az 26))).
Proof.
  apply (encode_plain 26 (built (init 3 (az 26))) (py "HELLO")).
  - lia.
  - reflexivity.
  - reflexivity.
Defined.

(** ** The Walzen within a call *)









